(** * The chat component of the AI travel planner (src/App.tsx)

    A shallow embedding of the React component [App]: its state hooks, its
    event handlers, its effects and the two HTTP calls it makes, followed by
    the properties of the chat/session state machine.

    The component is asynchronous: [handleSend] and [checkBackendHealth]
    suspend at an [await] and resume when the browser delivers the outcome of
    the request.  Each of them is therefore split into the part that runs up
    to the [await] and the continuation that runs after it; a suspended
    continuation is a record of the variables its closure captured.

    A handler is a closure of the render that created it and reads the state
    of that render.  React commits the state updates of a click or a key
    press before the next such event is handled, so a handler that starts
    reads the current state; the continuation of [handleSend], which runs
    later, still reads the [id] and the [activeChatId] of the call that
    suspended.  State updates of one handler are applied together.

    The greeting, the scrolling effect and the two date formatters touch none
    of the fields the properties speak of and are left out. *)

From Stdlib Require Import ZArith NArith List String Ascii Bool Lia.
From Stdlib Require Import DecimalString DecimalZ DecimalPos Permutation.
Import ListNotations.

Set Implicit Arguments.
Set Warnings "-register-all".
Open Scope Z_scope.

(** ** The JavaScript fragment the component relies on *)

Module JS.

(** A JavaScript string is a sequence of UTF-16 code units. *)
Definition jsstring := list N.

(** A string literal of the source written with ASCII characters only. *)
Definition lit (s : string) : jsstring :=
  map N_of_ascii (list_ascii_of_string s).

Definition jsstring_eqb (a b : jsstring) : bool :=
  if list_eq_dec N.eq_dec a b then true else false.

(** ECMAScript WhiteSpace and LineTerminator code points: the ones
    [String.prototype.trim] strips.  All of them are single code units. *)
Definition isWhiteSpace (c : N) : bool :=
  existsb (N.eqb c)
    [ 0x0009; 0x000A; 0x000B; 0x000C; 0x000D; 0x0020; 0x00A0; 0x1680;
      0x2000; 0x2001; 0x2002; 0x2003; 0x2004; 0x2005; 0x2006; 0x2007;
      0x2008; 0x2009; 0x200A; 0x2028; 0x2029; 0x202F; 0x205F; 0x3000;
      0xFEFF ]%N.

Fixpoint trimStart (s : jsstring) : jsstring :=
  match s with
  | c :: s' => if isWhiteSpace c then trimStart s' else s
  | [] => []
  end.

Definition trimEnd (s : jsstring) : jsstring := rev (trimStart (rev s)).

Definition trim (s : jsstring) : jsstring := trimEnd (trimStart s).

(** [Number.prototype.toString] on an integer below 10^21 in magnitude (every
    value of [Date.now()] is one: time values are integers within 8.64e15 of
    zero): the decimal digits, with a leading minus sign when negative. *)
Definition toStringZ (n : Z) : jsstring :=
  lit (NilZero.string_of_int (Z.to_int n)).

(** A Number that came out of a JSON text, kept as the two things the
    component can observe of it: whether it is zero (the only numbers that
    ToBoolean maps to false here, JSON having no NaN) and the string that
    Number::toString gives for it.  Every number has such a pair, whatever
    its size and whether it is an integer or not. *)
Record Number : Type :=
  { isZero : bool; numberText : jsstring }.

(** The values [Response.json()] can resolve to, and [undefined], which
    reading a missing property yields.  An object is the list of its own
    properties, each name once. *)
Inductive value : Type :=
| VUndefined
| VNull
| VBool (b : bool)
| VNum (x : Number)
| VStr (s : jsstring)
| VArr (items : list value)
| VObj (fields : list (jsstring * value)).

(** ToBoolean, as applied by [!], [||], [?:] and [if]. *)
Definition truthy (v : value) : bool :=
  match v with
  | VUndefined | VNull => false
  | VBool b => b
  | VNum x => negb (isZero x)
  | VStr s => match s with [] => false | _ => true end
  | VArr _ | VObj _ => true
  end.

(** [a || b] *)
Definition or_else (a b : value) : value := if truthy a then a else b.

(** What a [throw], or a rejected promise, carries: an [Error] object, of
    which the component reads [message] only, or a value that is not an
    instance of [Error]. *)
Inductive thrown : Type :=
| ThrownError (message : jsstring)
| ThrownOther.

(** The outcome of an expression that may throw. *)
Inductive completion (A : Type) : Type :=
| Normal (a : A)
| Throw (e : thrown).
Arguments Throw {A} e.

Fixpoint lookup (p : jsstring) (fields : list (jsstring * value)) : value :=
  match fields with
  | [] => VUndefined
  | (k, v) :: rest => if jsstring_eqb k p then v else lookup p rest
  end.

(** [fields] has an own property named [p]. *)
Definition hasOwn (p : jsstring) (fields : list (jsstring * value)) : bool :=
  existsb (fun kv => jsstring_eqb (fst kv) p) fields.

Section PropertyAccess.

(** The text of the TypeError the engine raises on [v] in the operation
    named [p]: reading property [p] of [v], for [v] [null] or [undefined];
    and, with [p] = "toString", converting the object [v] to a string when
    that cannot be done.  The texts are chosen by the JavaScript engine. *)
Variable typeErrorText : value -> jsstring -> jsstring.

(** ToString, which [new Error(x)] applies to [x].  An array joins the
    strings of its items with commas, from the left, an item that is [null]
    or [undefined] giving the empty string.  A plain object gives the fixed
    text of [Object.prototype.toString], unless it has an own property
    [toString]: a value out of JSON is no function, so neither that property
    nor [valueOf] yields a primitive, and the conversion throws a
    TypeError. *)
Fixpoint ToString (v : value) : completion jsstring :=
  match v with
  | VUndefined => Normal (lit "undefined")
  | VNull => Normal (lit "null")
  | VBool true => Normal (lit "true")
  | VBool false => Normal (lit "false")
  | VNum x => Normal (numberText x)
  | VStr s => Normal s
  | VArr items =>
      (fix join (l : list value) : completion jsstring :=
         match l with
         | [] => Normal []
         | x :: l' =>
             match (match x with
                    | VUndefined | VNull => Normal []
                    | _ => ToString x
                    end) with
             | Throw e => Throw e
             | Normal sx =>
                 match l' with
                 | [] => Normal sx
                 | _ => match join l' with
                        | Throw e => Throw e
                        | Normal rest => Normal (sx ++ lit "," ++ rest)
                        end
                 end
             end
         end) items
  | VObj fields =>
      if hasOwn (lit "toString") fields
      then Throw (ThrownError (typeErrorText v (lit "toString")))
      else Normal (lit "[object Object]")
  end.

(** [v.p], for a property name [p] that no built-in prototype defines
    ([detail], [response] and [api_ready] are such names). *)
Definition get (v : value) (p : jsstring) : completion value :=
  match v with
  | VUndefined | VNull => Throw (ThrownError (typeErrorText v p))
  | VObj fields => Normal (lookup p fields)
  | _ => Normal VUndefined
  end.

End PropertyAccess.

(** [v?.p] *)
Definition get_optional (v : value) (p : jsstring) : value :=
  match v with
  | VObj fields => lookup p fields
  | _ => VUndefined
  end.

(** What [await fetch(url)] delivers: the promise rejects (a network
    failure), or it resolves to a [Response], of which the component reads
    [ok] and the outcome of [json()]; [json()] rejects when the body is not
    JSON text. *)
Inductive fetched : Type :=
| FetchRejected (e : thrown)
| FetchResolved (ok : bool) (json : completion value).

End JS.
Import JS.

(** ** The data model (the interfaces [Message] and [Chat]) *)

Inductive Sender : Type := user | bot.

(** A [Date] is its time value, in milliseconds. *)
Definition Date := Z.

Module Message.
(** [text] is declared a string; the bot message stores in it whatever
    [sendToWatson] resolved to, which is the [response] property of the
    JSON body, so the field holds a JavaScript value. *)
Record t : Type := Build
  { id : jsstring; text : value; sender : Sender; timestamp : Date }.
End Message.

Module Chat.
Record t : Type := Build
  { id : jsstring; title : jsstring;
    messages : list Message.t; createdAt : Date }.

(** [{ ...chat, messages: ms }] *)
Definition with_messages (chat : t) (ms : list Message.t) : t :=
  {| id := id chat; title := title chat;
     messages := ms; createdAt := createdAt chat |}.
End Chat.

Inductive BackendStatus : Type := checking | ready | error_status.

(** ** The state hooks of [App] *)

Record AppState : Type :=
  { chats : list Chat.t;
    activeChatId : option jsstring;       (* string | null *)
    message : jsstring;
    loading : bool;
    error : option jsstring;              (* string | null *)
    backendStatus : BackendStatus;
    isSidebarOpen : bool }.

(** A call of [handleSend] suspended at [await sendToWatson(...)]: the
    variables of the call that its continuation reads. *)
Record Dispatch : Type :=
  { d_id : jsstring;              (* const id *)
    d_activeChatId : jsstring }.  (* activeChatId of the render that made the handler *)

(** The component together with what is outstanding around it. *)
Record World : Type :=
  { ui : AppState;
    sends : list Dispatch;     (* calls of handleSend awaiting their reply *)
    posted : list jsstring;    (* [message] of every POST to /api/chat, oldest first *)
    probes : nat;              (* GETs to /api/health issued so far *)
    probing : bool;            (* checkBackendHealth is awaiting its reply *)
    mounted : bool }.          (* the effects of the first commit have run *)

(** The [useState] initial values, before any effect has run. *)
Definition initialState : AppState :=
  {| chats := []; activeChatId := None; message := []; loading := false;
     error := None; backendStatus := checking; isSidebarOpen := true |}.

Definition initial : World :=
  {| ui := initialState; sends := []; posted := []; probes := 0%nat;
     probing := false; mounted := false |}.

(** The state setters. *)
Definition setChats (f : list Chat.t -> list Chat.t) (w : World) : World :=
  {| ui := {| chats := f (chats (ui w)); activeChatId := activeChatId (ui w);
              message := message (ui w); loading := loading (ui w);
              error := error (ui w); backendStatus := backendStatus (ui w);
              isSidebarOpen := isSidebarOpen (ui w) |};
     sends := sends w; posted := posted w; probes := probes w;
     probing := probing w; mounted := mounted w |}.

Definition setActiveChatId (a : option jsstring) (w : World) : World :=
  {| ui := {| chats := chats (ui w); activeChatId := a;
              message := message (ui w); loading := loading (ui w);
              error := error (ui w); backendStatus := backendStatus (ui w);
              isSidebarOpen := isSidebarOpen (ui w) |};
     sends := sends w; posted := posted w; probes := probes w;
     probing := probing w; mounted := mounted w |}.

Definition setMessage (m : jsstring) (w : World) : World :=
  {| ui := {| chats := chats (ui w); activeChatId := activeChatId (ui w);
              message := m; loading := loading (ui w);
              error := error (ui w); backendStatus := backendStatus (ui w);
              isSidebarOpen := isSidebarOpen (ui w) |};
     sends := sends w; posted := posted w; probes := probes w;
     probing := probing w; mounted := mounted w |}.

Definition setLoading (b : bool) (w : World) : World :=
  {| ui := {| chats := chats (ui w); activeChatId := activeChatId (ui w);
              message := message (ui w); loading := b;
              error := error (ui w); backendStatus := backendStatus (ui w);
              isSidebarOpen := isSidebarOpen (ui w) |};
     sends := sends w; posted := posted w; probes := probes w;
     probing := probing w; mounted := mounted w |}.

Definition setError (e : option jsstring) (w : World) : World :=
  {| ui := {| chats := chats (ui w); activeChatId := activeChatId (ui w);
              message := message (ui w); loading := loading (ui w);
              error := e; backendStatus := backendStatus (ui w);
              isSidebarOpen := isSidebarOpen (ui w) |};
     sends := sends w; posted := posted w; probes := probes w;
     probing := probing w; mounted := mounted w |}.

Definition setBackendStatus (s : BackendStatus) (w : World) : World :=
  {| ui := {| chats := chats (ui w); activeChatId := activeChatId (ui w);
              message := message (ui w); loading := loading (ui w);
              error := error (ui w); backendStatus := s;
              isSidebarOpen := isSidebarOpen (ui w) |};
     sends := sends w; posted := posted w; probes := probes w;
     probing := probing w; mounted := mounted w |}.

Definition setIsSidebarOpen (b : bool) (w : World) : World :=
  {| ui := {| chats := chats (ui w); activeChatId := activeChatId (ui w);
              message := message (ui w); loading := loading (ui w);
              error := error (ui w); backendStatus := backendStatus (ui w);
              isSidebarOpen := b |};
     sends := sends w; posted := posted w; probes := probes w;
     probing := probing w; mounted := mounted w |}.

(** ** The component: effects, handlers and their continuations *)

(** [!activeChatId] is false exactly for a non-empty string. *)
Definition chatIdSet (a : option jsstring) : option jsstring :=
  match a with
  | Some (c :: s) => Some (c :: s)
  | _ => None
  end.

(** [prev.map(chat => chat.id === a ? { ...chat, messages: f(chat.messages) } : chat)],
    the update every handler applies to [chats]. *)
Definition updateChat (a : jsstring) (f : list Message.t -> list Message.t)
    (prev : list Chat.t) : list Chat.t :=
  map (fun chat =>
         if jsstring_eqb (Chat.id chat) a
         then Chat.with_messages chat (f (Chat.messages chat))
         else chat) prev.

(** [chats.find(c => c.id === activeChatId)] *)
Definition activeChat (s : AppState) : option Chat.t :=
  match activeChatId s with
  | Some a => find (fun c => jsstring_eqb (Chat.id c) a) (chats s)
  | None => None
  end.

(** The marker the error message starts with: U+26A0 U+FE0F and a space. *)
Definition warningSign : jsstring := [0x26A0; 0xFE0F; 0x0020]%N.

Section Component.

Variable typeErrorText : value -> jsstring -> jsstring.

(** *** checkBackendHealth *)

(** Up to [await fetch('.../api/health')]. *)
Definition checkBackendHealth (w : World) : World :=
  {| ui := ui w; sends := sends w; posted := posted w;
     probes := S (probes w); probing := true; mounted := mounted w |}.

(** [const data = await res.ok ? await res.json() : null] *)
Definition healthData (r : fetched) : completion value :=
  match r with
  | FetchRejected e => Throw e
  | FetchResolved ok json => if ok then json else Normal VNull
  end.

(** The status the [try]/[catch] sets. *)
Definition healthStatus (r : fetched) : BackendStatus :=
  match healthData r with
  | Normal data =>
      if truthy (get_optional data (lit "api_ready")) then ready
      else error_status
  | Throw _ => error_status
  end.

(** From the [await] on. *)
Definition checkBackendHealth_settled (r : fetched) (w : World) : World :=
  let w' := setBackendStatus (healthStatus r) w in
  {| ui := ui w'; sends := sends w'; posted := posted w';
     probes := probes w'; probing := false; mounted := mounted w' |}.

(** *** sendToWatson *)

(** What [sendToWatson] completes with, given what its [fetch] delivered. *)
Definition sendToWatson (r : fetched) : completion value :=
  match r with
  | FetchRejected e => Throw e
  | FetchResolved ok json =>
      if negb ok then
        match json with
        | Throw e => Throw e
        | Normal body =>
            match get typeErrorText body (lit "detail") with
            | Throw e => Throw e
            | Normal detail =>
                (* throw new Error(detail || 'Request failed') *)
                match ToString typeErrorText
                        (or_else detail (VStr (lit "Request failed"))) with
                | Throw e => Throw e
                | Normal text => Throw (ThrownError text)
                end
            end
        end
      else
        match json with
        | Throw e => Throw e
        | Normal body => get typeErrorText body (lit "response")
        end
  end.

(** *** The effect on [chats] *)

(** [now] is what [Date.now()] returns and [created] the time value of the
    [new Date()] that follows it. *)
Definition chatsEffect (now : Z) (created : Date) (w : World) : World :=
  match chats (ui w) with
  | [] =>
      let id := toStringZ now in
      let newChat :=
        {| Chat.id := id; Chat.title := lit "Chat";
           Chat.messages := []; Chat.createdAt := created |} in
      setActiveChatId (Some id) (setChats (fun _ => [newChat]) w)
  | _ :: _ => w
  end.

(** *** handleSend *)

(** Up to [await sendToWatson(message.trim())].  [now] is what [Date.now()]
    returns and [stamp] the time value of the [new Date()] that follows. *)
Definition handleSend (now : Z) (stamp : Date) (w : World) : World :=
  let text := trim (message (ui w)) in
  match text, loading (ui w), chatIdSet (activeChatId (ui w)) with
  | _ :: _, false, Some a =>
      let id := toStringZ now in
      let newMsg :=
        {| Message.id := id; Message.text := VStr text;
           Message.sender := user; Message.timestamp := stamp |} in
      let w1 := setChats (updateChat a (fun ms => ms ++ [newMsg])) w in
      let w2 := setMessage [] w1 in
      let w3 := setLoading true w2 in
      let w4 := setError None w3 in
      {| ui := ui w4;
         sends := sends w4 ++ [{| d_id := id; d_activeChatId := a |}];
         posted := posted w4 ++ [text];
         probes := probes w4; probing := probing w4; mounted := mounted w4 |}
  | _, _, _ => w
  end.

(** From the [await] on, for the suspended call [d]: the [try] block when
    [sendToWatson] returned, the [catch] block when it threw, then the
    [finally] block.  [stamp] is the time value of the [new Date()]. *)
Definition handleSend_settled (d : Dispatch) (r : fetched) (stamp : Date)
    (w : World) : World :=
  let w' :=
    match sendToWatson r with
    | Normal reply =>
        let botMsg :=
          {| Message.id := d_id d ++ lit "_bot"; Message.text := reply;
             Message.sender := bot; Message.timestamp := stamp |} in
        setChats (updateChat (d_activeChatId d) (fun ms => ms ++ [botMsg])) w
    | Throw err =>
        let msg := match err with
                   | ThrownError m => m
                   | ThrownOther => lit "Unexpected error"
                   end in
        let errMsg :=
          {| Message.id := d_id d ++ lit "_err";
             Message.text := VStr (warningSign ++ msg);
             Message.sender := bot; Message.timestamp := stamp |} in
        setChats (updateChat (d_activeChatId d) (fun ms => ms ++ [errMsg]))
                 (setError (Some msg) w)
    end in
  setLoading false w'.

(** *** handleClearChat *)

Definition handleClearChat (w : World) : World :=
  match chatIdSet (activeChatId (ui w)) with
  | None => w
  | Some a => setChats (updateChat a (fun _ => [])) w
  end.

(** *** The events of the component *)

Inductive Event : Type :=
| Mount (now : Z) (created : Date)
    (* the first commit: the effects run, in source order *)
| ChatsChanged (now : Z) (created : Date)
    (* a later commit in which [chats] changed: its effect runs *)
| HealthSettled (r : fetched)
    (* the health request settles *)
| Change (v : jsstring)
    (* onChange of the textarea *)
| Send (now : Z) (stamp : Date)
    (* click on the send button, or Enter in the textarea *)
| ChatSettled (k : nat) (r : fetched) (stamp : Date)
    (* the request of the k-th suspended handleSend settles *)
| SelectChat (n : nat)
    (* click on the n-th button of the chat list *)
| ClearChat
    (* click on the clear button *)
| ToggleSidebar
| OpenSidebar.

(** [remove_nth k l]: the k-th element of [l] and the others. *)
Fixpoint remove_nth (A : Type) (k : nat) (l : list A) : option (A * list A) :=
  match l, k with
  | [], _ => None
  | x :: l', O => Some (x, l')
  | x :: l', S k' =>
      match remove_nth k' l' with
      | Some (y, r) => Some (y, x :: r)
      | None => None
      end
  end.

(** One event.  [None]: the event cannot happen in [w] (no such request is
    outstanding, no such button is rendered, the component is mounted
    already). *)
Definition step (e : Event) (w : World) : option World :=
  match e with
  | Mount now created =>
      if mounted w then None
      else
        let w1 := checkBackendHealth w in
        let w2 := chatsEffect now created w1 in
        Some {| ui := ui w2; sends := sends w2; posted := posted w2;
                probes := probes w2; probing := probing w2; mounted := true |}
  | ChatsChanged now created => Some (chatsEffect now created w)
  | HealthSettled r =>
      if probing w then Some (checkBackendHealth_settled r w) else None
  | Change v => Some (setMessage v w)
  | Send now stamp => Some (handleSend now stamp w)
  | ChatSettled k r stamp =>
      match remove_nth k (sends w) with
      | Some (d, rest) =>
          Some (handleSend_settled d r stamp
                  {| ui := ui w; sends := rest; posted := posted w;
                     probes := probes w; probing := probing w;
                     mounted := mounted w |})
      | None => None
      end
  | SelectChat n =>
      match nth_error (chats (ui w)) n with
      | Some chat =>
          Some (setIsSidebarOpen false (setActiveChatId (Some (Chat.id chat)) w))
      | None => None
      end
  | ClearChat => Some (handleClearChat w)
  | ToggleSidebar => Some (setIsSidebarOpen (negb (isSidebarOpen (ui w))) w)
  | OpenSidebar => Some (setIsSidebarOpen true w)
  end.

(** A run: events in order, from the left. *)
Fixpoint run (es : list Event) (w : World) : option World :=
  match es with
  | [] => Some w
  | e :: es' =>
      match step e w with
      | Some w' => run es' w'
      | None => None
      end
  end.

(** The worlds the component can be in. *)
Inductive reachable : World -> Prop :=
| reachable_initial : reachable initial
| reachable_step e w w' :
    reachable w -> step e w = Some w' -> reachable w'.

End Component.

(** ** Notions the properties are stated with *)

(** The code unit of the underscore that starts the two id suffixes. *)
Definition underscore : N := 95%N.

(** The part of an id before its first underscore. *)
Fixpoint stem (s : jsstring) : jsstring :=
  match s with
  | [] => []
  | c :: s' => if N.eqb c underscore then [] else c :: stem s'
  end.

(** [activeChatId] references a chat of the collection whenever the
    collection is not empty. *)
Definition activeValid (s : AppState) : Prop :=
  chats s <> [] ->
  exists c, In c (chats s) /\ activeChatId s = Some (Chat.id c).

(** The engine text of V8, to run the component on concrete inputs. *)
Definition v8TypeErrorText (v : value) (p : jsstring) : jsstring :=
  match v with
  | VUndefined =>
      lit "Cannot read properties of undefined (reading '" ++ p ++ lit "')"
  | VNull =>
      lit "Cannot read properties of null (reading '" ++ p ++ lit "')"
  | _ => lit "Cannot convert object to primitive value"
  end.

(** The chat store is consistent: an empty collection has no active id, a
    non-empty one has its active id among its chats; no chat id is empty. *)
Definition storeInv (w : World) : Prop :=
  (chats (ui w) = [] /\ activeChatId (ui w) = None \/
   exists c, In c (chats (ui w)) /\ activeChatId (ui w) = Some (Chat.id c)) /\
  forall c, In c (chats (ui w)) -> Chat.id c <> [].

(** [loading] tells whether a call of [handleSend] is suspended, and no more
    than one is. *)
Definition flightInv (w : World) : Prop :=
  loading (ui w) = false /\ sends w = [] \/
  loading (ui w) = true /\ exists d, sends w = [d].

(** The health probe: none before the first commit, one ever after, and the
    status stays [checking] until it settles. *)
Definition healthInv (w : World) : Prop :=
  (mounted w = false -> probes w = 0%nat /\ probing w = false) /\
  (mounted w = true -> probes w = 1%nat) /\
  (mounted w = false \/ probing w = true -> backendStatus (ui w) = checking).

(** Events other than the settling of a chat request. *)
Definition notSettled (e : Event) : bool :=
  match e with
  | ChatSettled _ _ _ => false
  | _ => true
  end.

(** The failure reason as the specification words it for a response that is
    not a 2xx one: the [detail] string of the body, "Request failed" when
    there is none. *)
Definition statedReason (json : completion value) : jsstring :=
  match json with
  | Normal (VObj fields) =>
      match lookup (lit "detail") fields with
      | VStr detail => detail
      | _ => lit "Request failed"
      end
  | _ => lit "Request failed"
  end.

(** Every user message is directly followed by its own reply (the bot
    message whose id is the user message's id and a suffix), except a user
    message at the end of the log, which is the one of the dispatch in
    flight, [pending]. *)
Fixpoint paired (pending : option jsstring) (ms : list Message.t) : Prop :=
  match ms with
  | [] => True
  | m :: rest =>
      match Message.sender m with
      | bot => paired pending rest
      | user =>
          match rest with
          | [] => pending = Some (Message.id m)
          | b :: _ =>
              Message.sender b = bot /\
              (Message.id b = Message.id m ++ lit "_bot" \/
               Message.id b = Message.id m ++ lit "_err") /\
              paired pending rest
          end
      end
  end.

(** The id of the user message that awaits its reply in chat [c], if any. *)
Definition pendingFor (w : World) (c : Chat.t) : option jsstring :=
  match sends w with
  | d :: _ =>
      if jsstring_eqb (Chat.id c) (d_activeChatId d) then Some (d_id d) else None
  | [] => None
  end.

(** [handleSend] passes its guard in [w]. *)
Definition sendStarts (w : World) : bool :=
  match trim (message (ui w)), loading (ui w), chatIdSet (activeChatId (ui w)) with
  | _ :: _, false, Some _ => true
  | _, _, _ => false
  end.

(** The values of [Date.now()] that [handleSend] reads when event [e] happens
    in [w]: it reads the clock once, after its guard. *)
Definition clockOf (e : Event) (w : World) : list Z :=
  match e with
  | Send now _ => if sendStarts w then [now] else []
  | _ => []
  end.

Section Clocks.

Variable typeErrorText : value -> jsstring -> jsstring.

(** The values of [Date.now()] that the calls of [handleSend] read along
    the run of [es] from [w], in order. *)
Fixpoint clocksRead (es : list Event) (w : World) : list Z :=
  match es with
  | [] => []
  | e :: es' =>
      clockOf e w ++
      match step typeErrorText e w with
      | Some w' => clocksRead es' w'
      | None => []
      end
  end.

End Clocks.

(** What one event does to the chats and to the suspended calls; [clock] is
    what [handleSend] read of the clock. *)
Inductive chatsStep (w w' : World) : list Z -> Prop :=
| cs_same :
    chats (ui w') = chats (ui w) -> sends w' = sends w ->
    chatsStep w w' []
| cs_default c0 :
    chats (ui w) = [] -> chats (ui w') = [c0] -> Chat.messages c0 = [] ->
    sends w' = sends w ->
    chatsStep w w' []
| cs_send a now m :
    loading (ui w) = false ->
    Message.sender m = user -> Message.id m = toStringZ now ->
    chats (ui w') = updateChat a (fun ms => ms ++ [m]) (chats (ui w)) ->
    sends w' = sends w ++ [{| d_id := toStringZ now; d_activeChatId := a |}] ->
    chatsStep w w' [now]
| cs_settled k d rest m :
    remove_nth k (sends w) = Some (d, rest) -> sends w' = rest ->
    Message.sender m = bot ->
    Message.id m = d_id d ++ lit "_bot" \/ Message.id m = d_id d ++ lit "_err" ->
    chats (ui w') =
      updateChat (d_activeChatId d) (fun ms => ms ++ [m]) (chats (ui w)) ->
    chatsStep w w' []
| cs_clear a :
    chats (ui w') = updateChat a (fun _ => []) (chats (ui w)) ->
    sends w' = sends w ->
    chatsStep w w' [].

(** Message pairs of distinct dispatches never interleave. *)
Definition pairedInv (w : World) : Prop :=
  forall c, In c (chats (ui w)) -> paired (pendingFor w c) (Chat.messages c).

(** Message ids are unique within each chat, and stay so: given the clock
    values [U] read so far, every message id stems from one of them, every
    suspended call has the decimal string of one of them as its id and its
    reply is not yet in any chat, and the suspended calls have distinct ids. *)
Definition uniqInv (U : list Z) (w : World) : Prop :=
  (forall c, In c (chats (ui w)) ->
     NoDup (map Message.id (Chat.messages c)) /\
     forall m, In m (Chat.messages c) ->
       exists t, In t U /\ stem (Message.id m) = toStringZ t) /\
  (forall d, In d (sends w) ->
     (exists t, In t U /\ d_id d = toStringZ t) /\
     forall c m, In c (chats (ui w)) -> In m (Chat.messages c) ->
       Message.id m <> d_id d ++ lit "_bot" /\
       Message.id m <> d_id d ++ lit "_err") /\
  NoDup (map d_id (sends w)).

(** ** Concrete worlds and responses *)

(** The world a run from the initial one ends in. *)
Definition worldAfter (es : list Event) : World :=
  match run v8TypeErrorText es initial with
  | Some w => w
  | None => initial
  end.

(** A 2xx response with body [{ "response": text }]. *)
Definition okReply (text : string) : fetched :=
  FetchResolved true (Normal (VObj [(lit "response", VStr (lit text))])).

(** A 500 response with body [{ "detail": detail }]. *)
Definition errorReply (detail : string) : fetched :=
  FetchResolved false (Normal (VObj [(lit "detail", VStr (lit detail))])).

(** A 500 response whose body is plain text, at which [json()] raises a
    SyntaxError. *)
Definition plainTextError : fetched :=
  FetchResolved false
    (Throw (ThrownError (lit "Unexpected token I in JSON at position 0"))).

(** The component mounted at time 1000, a question typed in the composer. *)
Definition askedEvents : list Event :=
  [Mount 1000 1001; Change (lit "Where should I go in March?")].
Definition askedWorld : World := Eval vm_compute in worldAfter askedEvents.
Definition askedChat : Chat.t :=
  {| Chat.id := lit "1000"; Chat.title := lit "Chat";
     Chat.messages := []; Chat.createdAt := 1001 |}.

(** Blanks only in the composer. *)
Definition blankEvents : list Event :=
  [Mount 1000 1001; Change (lit "   ")].
Definition blankWorld : World := Eval vm_compute in worldAfter blankEvents.

(** The question sent, its reply outstanding. *)
Definition sendingEvents : list Event := askedEvents ++ [Send 2000 2001].
Definition sendingWorld : World := Eval vm_compute in worldAfter sendingEvents.

(** The question answered. *)
Definition answeredEvents : list Event :=
  sendingEvents ++ [ChatSettled 0 (okReply "Try Kyoto.") 2500].
Definition answeredWorld : World := Eval vm_compute in worldAfter answeredEvents.

(** A second question sent within the millisecond of the first. *)
Definition sameMillisecondEvents : list Event :=
  answeredEvents ++ [Change (lit "And in April?"); Send 2000 2501].
Definition sameMillisecondWorld : World :=
  Eval vm_compute in worldAfter sameMillisecondEvents.

(** A second question sent later. *)
Definition laterEvents : list Event :=
  answeredEvents ++ [Change (lit "And in April?"); Send 3000 3001].
Definition laterWorld : World := Eval vm_compute in worldAfter laterEvents.

(** A store with two chats, the first one active. *)
Definition twoChats : World :=
  {| ui := {| chats := [ {| Chat.id := lit "1"; Chat.title := lit "Chat";
                            Chat.messages := []; Chat.createdAt := 1 |};
                         {| Chat.id := lit "2"; Chat.title := lit "Chat";
                            Chat.messages := []; Chat.createdAt := 2 |} ];
              activeChatId := Some (lit "1"); message := lit "hi";
              loading := false; error := None; backendStatus := ready;
              isSidebarOpen := true |};
     sends := []; posted := []; probes := 1%nat; probing := false;
     mounted := true |}.

(** After a send in [twoChats]: the user looks at the second chat. *)
Definition switchEvents : list Event := [SelectChat 1; Change (lit "draft")].
Definition switchedWorld : World :=
  Eval vm_compute in
    match run v8TypeErrorText switchEvents (handleSend 5 6 twoChats) with
    | Some w => w
    | None => initial
    end.

(** ** The rest of the component: the key handler and what is rendered *)

(** What [handleKeyPress] reads of a keyboard event. *)
Record KeyboardEvent : Type :=
  { key : jsstring; shiftKey : bool }.

(** [handleKeyPress]: the pair of whether [e.preventDefault()] was called and
    of the world after the call.  [now] and [stamp] are the clock values
    [handleSend] reads, if it reads them. *)
Definition handleKeyPress (e : KeyboardEvent) (now : Z) (stamp : Date)
    (w : World) : bool * World :=
  if jsstring_eqb (key e) (lit "Enter") && negb (shiftKey e)
  then (true, handleSend now stamp w)
  else (false, w).

(** [disabled] of the send button: [!message.trim() || loading || !activeChat]. *)
Definition sendDisabled (s : AppState) : bool :=
  negb (truthy (VStr (trim (message s)))) || loading s ||
  match activeChat s with Some _ => false | None => true end.

(** [disabled] of the textarea: [!activeChat || loading]. *)
Definition textareaDisabled (s : AppState) : bool :=
  match activeChat s with Some _ => false | None => true end || loading s.

(** The clear button is rendered: [activeChat && ...]. *)
Definition clearButtonShown (s : AppState) : bool :=
  match activeChat s with Some _ => true | None => false end.

(** The messages the panel maps over: [activeChat?.messages.map(...)].  This
    is the list handed to the renderer; an element is drawn only if its text
    can be a child of an element, which an object cannot. *)
Definition shownMessages (s : AppState) : list Message.t :=
  match activeChat s with
  | Some c => Chat.messages c
  | None => []
  end.

(** The text of the status badge. *)
Definition statusLabel (b : BackendStatus) : jsstring :=
  match b with
  | ready => lit "Online"
  | error_status => lit "Error"
  | checking => lit "Checking"
  end.

(** A text that is not empty and neither starts nor ends with white space. *)
Definition trimmedText (s : jsstring) : Prop :=
  s <> [] /\
  (forall c, hd_error s = Some c -> isWhiteSpace c = false) /\
  (forall c, hd_error (rev s) = Some c -> isWhiteSpace c = false).

(** The shape of the messages the component builds: a user message has the
    decimal string of a clock value as id and a trimmed text; a bot message
    has such an id followed by "_bot", or followed by "_err" and then its
    text is the warning sign and a reason. *)
Definition wellFormedMessage (m : Message.t) : Prop :=
  match Message.sender m with
  | user =>
      (exists t, Message.id m = toStringZ t) /\
      exists s, Message.text m = VStr s /\ trimmedText s
  | bot =>
      exists t,
        Message.id m = toStringZ t ++ lit "_bot" \/
        (Message.id m = toStringZ t ++ lit "_err" /\
         exists reason, Message.text m = VStr (warningSign ++ reason))
  end.

Definition wellFormedInv (w : World) : Prop :=
  (forall c m, In c (chats (ui w)) -> In m (Chat.messages c) ->
     wellFormedMessage m) /\
  (forall d, In d (sends w) -> exists t, d_id d = toStringZ t) /\
  Forall trimmedText (posted w).

(** One chat keeps what identifies it, and its log is kept, emptied, or
    extended by one message at its end. *)
Definition chatKept (c c' : Chat.t) : Prop :=
  Chat.id c' = Chat.id c /\ Chat.title c' = Chat.title c /\
  Chat.createdAt c' = Chat.createdAt c /\
  (Chat.messages c' = Chat.messages c \/ Chat.messages c' = [] \/
   exists m, Chat.messages c' = Chat.messages c ++ [m]).

(** The reason [handleSend] shows for what [sendToWatson] threw. *)
Definition reasonOf (err : thrown) : jsstring :=
  match err with
  | ThrownError m => m
  | ThrownOther => lit "Unexpected error"
  end.


(** Events of the chat side: all but the first commit and the health reply. *)
Definition notHealth (e : Event) : bool :=
  match e with
  | Mount _ _ | HealthSettled _ => false
  | _ => true
  end.


(** The question sent and refused by the backend. *)
Definition failedEvents : list Event :=
  sendingEvents ++ [ChatSettled 0 (errorReply "rate limited") 2500].
Definition failedWorld : World := Eval vm_compute in worldAfter failedEvents.

(** After the failure, a new question typed. *)
Definition retypedEvents : list Event :=
  failedEvents ++ [Change (lit "And in April?")].
Definition retypedWorld : World := Eval vm_compute in worldAfter retypedEvents.

(** A health reply that says ready. *)
Definition readyReply : fetched :=
  FetchResolved true (Normal (VObj [(lit "api_ready", VBool true)])).

(** The question typed, the health probe settled. *)
Definition checkedEvents : list Event := askedEvents ++ [HealthSettled readyReply].
Definition checkedWorld : World := Eval vm_compute in worldAfter checkedEvents.


(** * Properties *)

(** ** Strings and ids *)

Lemma jsstring_eqb_eq (a b : jsstring) : jsstring_eqb a b = true <-> a = b.
Proof.
  unfold jsstring_eqb. destruct (list_eq_dec N.eq_dec a b); split; congruence.
Qed.

Lemma jsstring_eqb_refl (a : jsstring) : jsstring_eqb a a = true.
Proof. now apply jsstring_eqb_eq. Qed.

Lemma jsstring_eqb_neq (a b : jsstring) : jsstring_eqb a b = false <-> a <> b.
Proof.
  unfold jsstring_eqb. destruct (list_eq_dec N.eq_dec a b); split; congruence.
Qed.

Lemma lit_inj (s t : string) : lit s = lit t -> s = t.
Proof.
  unfold lit. intros H.
  rewrite <- (string_of_list_ascii_of_string s), <- (string_of_list_ascii_of_string t).
  f_equal.
  revert H. generalize (list_ascii_of_string s), (list_ascii_of_string t).
  induction l as [|a l IH]; intros [|b m]; simpl; try discriminate; auto.
  intros H. injection H as Hab Hlm.
  f_equal; [| now apply IH].
  rewrite <- (ascii_N_embedding a), <- (ascii_N_embedding b). now rewrite Hab.
Qed.

Lemma to_int_nonnil (n : Z) :
  Z.to_int n <> Decimal.Pos Decimal.Nil /\ Z.to_int n <> Decimal.Neg Decimal.Nil.
Proof.
  destruct n as [|p|p]; simpl; split; try discriminate;
    intros H; injection H as H; now apply Unsigned.to_uint_nonnil in H.
Qed.

(** Distinct integers have distinct decimal strings. *)
Lemma toStringZ_inj (m n : Z) : toStringZ m = toStringZ n -> m = n.
Proof.
  unfold toStringZ. intros H. apply lit_inj in H.
  apply DecimalZ.to_int_inj.
  destruct (to_int_nonnil m) as [Hm1 Hm2], (to_int_nonnil n) as [Hn1 Hn2].
  pose proof (NilZero.isi _ Hm1 Hm2) as Em.
  pose proof (NilZero.isi _ Hn1 Hn2) as En.
  rewrite H in Em. congruence.
Qed.

Lemma string_of_uint_no_underscore (d : Decimal.uint) :
  Forall (fun c => c <> underscore) (lit (NilEmpty.string_of_uint d)).
Proof.
  induction d; simpl; constructor; auto; unfold underscore; simpl; discriminate.
Qed.

Lemma toStringZ_no_underscore (n : Z) :
  Forall (fun c => c <> underscore) (toStringZ n).
Proof.
  assert (U : forall d, Forall (fun c => c <> underscore) (lit (NilZero.string_of_uint d))).
  { intros d. destruct d; try apply (string_of_uint_no_underscore (_ _)).
    simpl. constructor; [unfold underscore; simpl; discriminate | constructor]. }
  unfold toStringZ. destruct (Z.to_int n) as [d|d]; simpl.
  - apply U.
  - constructor; [unfold underscore; simpl; discriminate | apply U].
Qed.

Lemma toStringZ_nonempty (n : Z) : toStringZ n <> [].
Proof.
  unfold toStringZ. destruct (Z.to_int n) as [d|d]; simpl; try discriminate.
  destruct d; simpl; discriminate.
Qed.

Lemma stem_app_underscore (s t : jsstring) :
  Forall (fun c => c <> underscore) s ->
  stem (s ++ underscore :: t) = s.
Proof.
  induction 1 as [|c s Hc _ IH]; simpl.
  - reflexivity.
  - apply N.eqb_neq in Hc. rewrite Hc. now f_equal.
Qed.

Lemma stem_plain (s : jsstring) :
  Forall (fun c => c <> underscore) s -> stem s = s.
Proof.
  induction 1 as [|c s Hc _ IH]; simpl; auto.
  apply N.eqb_neq in Hc. rewrite Hc. now f_equal.
Qed.

Lemma stem_toStringZ (n : Z) : stem (toStringZ n) = toStringZ n.
Proof. apply stem_plain, toStringZ_no_underscore. Qed.

Lemma stem_bot (n : Z) : stem (toStringZ n ++ lit "_bot") = toStringZ n.
Proof. apply (stem_app_underscore (lit "bot")), toStringZ_no_underscore. Qed.

Lemma stem_err (n : Z) : stem (toStringZ n ++ lit "_err") = toStringZ n.
Proof. apply (stem_app_underscore (lit "err")), toStringZ_no_underscore. Qed.

Lemma plain_neq_suffixed (n : Z) (s t : jsstring) :
  toStringZ n <> s ++ underscore :: t.
Proof.
  intros H. pose proof (toStringZ_no_underscore n) as F. rewrite H in F.
  rewrite Forall_forall in F. apply (F underscore); auto.
  apply in_or_app. right. now left.
Qed.

(** ** Lists of chats *)

Lemma updateChat_length a f l :
  List.length (updateChat a f l) = List.length l.
Proof. apply length_map. Qed.

Lemma updateChat_In a f l c' :
  In c' (updateChat a f l) <->
  exists c, In c l /\
    c' = if jsstring_eqb (Chat.id c) a
         then Chat.with_messages c (f (Chat.messages c)) else c.
Proof.
  unfold updateChat. rewrite in_map_iff. split; intros [c [H1 H2]]; exists c; auto.
Qed.

Lemma updateChat_nth a f l n :
  nth_error (updateChat a f l) n =
  option_map (fun c => if jsstring_eqb (Chat.id c) a
                       then Chat.with_messages c (f (Chat.messages c)) else c)
             (nth_error l n).
Proof. unfold updateChat. apply nth_error_map. Qed.

Lemma updateChat_updateChat a f g l :
  updateChat a g (updateChat a f l) = updateChat a (fun ms => g (f ms)) l.
Proof.
  unfold updateChat. rewrite map_map. apply map_ext. intros c.
  destruct (jsstring_eqb (Chat.id c) a) eqn:E; simpl; now rewrite E.
Qed.

Lemma updateChat_find a b f l :
  find (fun c => jsstring_eqb (Chat.id c) b) (updateChat a f l) =
  option_map (fun c => if jsstring_eqb (Chat.id c) a
                       then Chat.with_messages c (f (Chat.messages c)) else c)
             (find (fun c => jsstring_eqb (Chat.id c) b) l).
Proof.
  induction l as [|c l IH]; simpl; auto.
  destruct (jsstring_eqb (Chat.id c) a) eqn:Ea; simpl;
    destruct (jsstring_eqb (Chat.id c) b) eqn:Eb; simpl; auto; now rewrite Ea.
Qed.

Lemma remove_nth_perm (A : Type) (k : nat) (l : list A) x rest :
  remove_nth k l = Some (x, rest) -> Permutation l (x :: rest).
Proof.
  revert k x rest. induction l as [|y l IH]; intros [|k] x rest; simpl; try discriminate.
  - intros [= -> ->]. apply Permutation_refl.
  - destruct (remove_nth k l) as [[z r]|] eqn:E; try discriminate.
    intros [= -> <-]. apply IH in E.
    eapply perm_trans; [apply perm_skip, E | apply perm_swap].
Qed.

Lemma chatIdSet_Some a b : chatIdSet a = Some b -> a = Some b /\ b <> [].
Proof.
  destruct a as [[|c s]|]; simpl; try discriminate.
  intros [= <-]. split; [reflexivity | discriminate].
Qed.

Lemma chatIdSet_nonempty b : b <> [] -> chatIdSet (Some b) = Some b.
Proof. destruct b; simpl; congruence. Qed.

Section Properties.

Variable typeErrorText : value -> jsstring -> jsstring.

Local Abbreviation step := (step typeErrorText).
Local Abbreviation run := (run typeErrorText).
Local Abbreviation reachable := (reachable typeErrorText).

(** *** What the handlers do, field by field *)

(** [handleSend] either returns at its guard or starts a dispatch. *)
Lemma handleSend_cases now stamp w :
  (handleSend now stamp w = w /\
   (trim (message (ui w)) = [] \/ loading (ui w) = true \/
    chatIdSet (activeChatId (ui w)) = None)) \/
  (exists a,
     trim (message (ui w)) <> [] /\ loading (ui w) = false /\
     chatIdSet (activeChatId (ui w)) = Some a /\
     handleSend now stamp w =
     {| ui := {| chats :=
                   updateChat a
                     (fun ms => ms ++
                        [{| Message.id := toStringZ now;
                            Message.text := VStr (trim (message (ui w)));
                            Message.sender := user;
                            Message.timestamp := stamp |}])
                     (chats (ui w));
                 activeChatId := activeChatId (ui w);
                 message := []; loading := true; error := None;
                 backendStatus := backendStatus (ui w);
                 isSidebarOpen := isSidebarOpen (ui w) |};
        sends := sends w ++ [{| d_id := toStringZ now; d_activeChatId := a |}];
        posted := posted w ++ [trim (message (ui w))];
        probes := probes w; probing := probing w; mounted := mounted w |}).
Proof.
  unfold handleSend.
  destruct (trim (message (ui w))) as [|c t] eqn:Et; [left; auto |].
  destruct (loading (ui w)) eqn:El; [left; auto |].
  destruct (chatIdSet (activeChatId (ui w))) as [a|] eqn:Ea; [| left; auto].
  right. exists a. repeat split; auto. discriminate.
Qed.

(** The message the continuation of [handleSend] appends. *)
Lemma handleSend_settled_fields d r stamp w :
  exists m,
    Message.sender m = bot /\ Message.timestamp m = stamp /\
    (Message.id m = d_id d ++ lit "_bot" \/ Message.id m = d_id d ++ lit "_err") /\
    chats (ui (handleSend_settled typeErrorText d r stamp w)) =
      updateChat (d_activeChatId d) (fun ms => ms ++ [m]) (chats (ui w)) /\
    activeChatId (ui (handleSend_settled typeErrorText d r stamp w)) = activeChatId (ui w) /\
    loading (ui (handleSend_settled typeErrorText d r stamp w)) = false /\
    backendStatus (ui (handleSend_settled typeErrorText d r stamp w)) = backendStatus (ui w) /\
    sends (handleSend_settled typeErrorText d r stamp w) = sends w /\
    posted (handleSend_settled typeErrorText d r stamp w) = posted w /\
    probes (handleSend_settled typeErrorText d r stamp w) = probes w /\
    probing (handleSend_settled typeErrorText d r stamp w) = probing w /\
    mounted (handleSend_settled typeErrorText d r stamp w) = mounted w.
Proof.
  unfold handleSend_settled.
  destruct (sendToWatson typeErrorText r) as [reply|err]; eexists; simpl;
    repeat split; auto.
Qed.

(** Invariants are proved by induction on how a world was reached. *)
Lemma reachable_ind_inv (P : World -> Prop) :
  P initial ->
  (forall e w w', P w -> step e w = Some w' -> P w') ->
  forall w, reachable w -> P w.
Proof.
  intros H0 Hs w Hw. induction Hw as [|e w w' _ IH Hst]; eauto.
Qed.

Lemma reachable_run es w w' :
  reachable w -> run es w = Some w' -> reachable w'.
Proof.
  revert w. induction es as [|e es IH]; simpl; intros w Hw H.
  - now injection H as <-.
  - destruct (step e w) as [w1|] eqn:E; try discriminate.
    apply (IH w1); auto. eapply reachable_step; eauto.
Qed.

Lemma reachable_iff_run w :
  reachable w <-> exists es, run es initial = Some w.
Proof.
  split.
  - induction 1 as [|e w w' _ [es IH] Hst].
    + now exists [].
    + exists (es ++ [e]). revert IH. generalize initial.
      induction es as [|e0 es IHes]; simpl; intros w0 H.
      * injection H as ->. now rewrite Hst.
      * destruct (step e0 w0); try discriminate. auto.
  - intros [es H]. eapply reachable_run; eauto. constructor.
Qed.

(** *** The chat store stays consistent *)

Lemma chatsEffect_storeInv now created w :
  storeInv w -> storeInv (chatsEffect now created w).
Proof.
  unfold chatsEffect. intros [H1 H2].
  destruct (chats (ui w)) as [|c0 l] eqn:E; [| split; rewrite ?E; auto].
  split; simpl.
  - right. eexists. split; [left; reflexivity | reflexivity].
  - intros c [<- | []]. simpl. apply toStringZ_nonempty.
Qed.

Lemma updateChat_storeInv a f w :
  storeInv w -> storeInv (setChats (updateChat a f) w).
Proof.
  intros [H1 H2]. split; simpl.
  - destruct H1 as [[E1 E2] | [c [Hc Ea]]].
    + left. rewrite E1. auto.
    + right. eexists. split; [apply updateChat_In; exists c; split; eauto |].
      rewrite Ea. now destruct (jsstring_eqb (Chat.id c) a).
  - intros c' Hc'. apply updateChat_In in Hc' as [c [Hc ->]].
    specialize (H2 c Hc). now destruct (jsstring_eqb (Chat.id c) a).
Qed.

Lemma storeInv_ext w w' :
  chats (ui w') = chats (ui w) -> activeChatId (ui w') = activeChatId (ui w) ->
  storeInv w -> storeInv w'.
Proof. unfold storeInv. intros -> ->. auto. Qed.

Lemma step_storeInv e w w' : storeInv w -> step e w = Some w' -> storeInv w'.
Proof.
  intros Hw Hst. destruct e; simpl in Hst.
  - destruct (mounted w); try discriminate. injection Hst as <-.
    eapply storeInv_ext; cycle 2;
      [apply (chatsEffect_storeInv now created (w := checkBackendHealth w)), Hw
      | reflexivity | reflexivity].
  - injection Hst as <-. now apply chatsEffect_storeInv.
  - destruct (probing w); try discriminate. injection Hst as <-.
    eapply storeInv_ext; cycle 2; [exact Hw | reflexivity | reflexivity].
  - injection Hst as <-. eapply storeInv_ext; cycle 2; [exact Hw | reflexivity | reflexivity].
  - injection Hst as <-.
    destruct (handleSend_cases now stamp w) as [[-> _] | [a [_ [_ [_ ->]]]]]; auto.
    eapply storeInv_ext; cycle 2;
      [eapply (@updateChat_storeInv a), Hw | reflexivity | reflexivity].
  - destruct (remove_nth k (sends w)) as [[d rest]|]; try discriminate.
    injection Hst as <-.
    match goal with |- storeInv (handleSend_settled typeErrorText d r stamp ?w0) =>
      destruct (handleSend_settled_fields d r stamp w0)
        as [m [_ [_ [_ [Hc [Ha _]]]]]] end.
    eapply storeInv_ext; cycle 2;
      [apply (updateChat_storeInv (d_activeChatId d) (fun ms => ms ++ [m]) Hw)
      | simpl; auto | simpl; auto].
  - destruct (nth_error (chats (ui w)) n) as [c|] eqn:E; try discriminate.
    injection Hst as <-. destruct Hw as [_ H2]. split; simpl; auto.
    right. exists c. split; auto. eapply nth_error_In; eauto.
  - injection Hst as <-. unfold handleClearChat.
    destruct (chatIdSet (activeChatId (ui w))); auto.
    now apply updateChat_storeInv.
  - injection Hst as <-. eapply storeInv_ext; cycle 2; [exact Hw | reflexivity | reflexivity].
  - injection Hst as <-. eapply storeInv_ext; cycle 2; [exact Hw | reflexivity | reflexivity].
Qed.

Lemma reachable_storeInv w : reachable w -> storeInv w.
Proof.
  apply reachable_ind_inv.
  - split; simpl; [left; auto | intros c []].
  - intros e w0 w'. apply step_storeInv.
Qed.

Lemma storeInv_activeValid w : storeInv w -> activeValid (ui w).
Proof.
  intros [[[E _] | H] _] Hne; [contradiction | exact H].
Qed.

(** In a consistent store the active chat is found exactly when
    [activeChatId] passes the guards of the handlers. *)
Lemma storeInv_activeChat w :
  storeInv w ->
  match activeChat (ui w) with
  | Some c => chatIdSet (activeChatId (ui w)) = Some (Chat.id c) /\
              In c (chats (ui w))
  | None => chatIdSet (activeChatId (ui w)) = None /\ chats (ui w) = []
  end.
Proof.
  intros [H1 H2]. unfold activeChat.
  destruct H1 as [[E1 E2] | [c [Hc Ea]]].
  - rewrite E2. auto.
  - rewrite Ea.
    destruct (find (fun c0 => jsstring_eqb (Chat.id c0) (Chat.id c)) (chats (ui w)))
      as [c1|] eqn:F.
    + apply find_some in F as [F1 F2]. apply jsstring_eqb_eq in F2.
      rewrite <- F2. split; auto. apply chatIdSet_nonempty. auto.
    + exfalso. apply (find_none _ _ F) in Hc. simpl in Hc.
      now rewrite jsstring_eqb_refl in Hc.
Qed.

(** *** One dispatch at a time *)

Lemma chatsEffect_frame now created w :
  let w' := chatsEffect now created w in
  message (ui w') = message (ui w) /\ loading (ui w') = loading (ui w) /\
  error (ui w') = error (ui w) /\
  backendStatus (ui w') = backendStatus (ui w) /\
  sends w' = sends w /\ posted w' = posted w /\ probes w' = probes w /\
  probing w' = probing w /\ mounted w' = mounted w.
Proof.
  unfold chatsEffect. destruct (chats (ui w)); simpl; repeat split; auto.
Qed.

Lemma handleClearChat_frame w :
  let w' := handleClearChat w in
  activeChatId (ui w') = activeChatId (ui w) /\
  message (ui w') = message (ui w) /\ loading (ui w') = loading (ui w) /\
  error (ui w') = error (ui w) /\
  backendStatus (ui w') = backendStatus (ui w) /\
  sends w' = sends w /\ posted w' = posted w /\ probes w' = probes w /\
  probing w' = probing w /\ mounted w' = mounted w.
Proof.
  unfold handleClearChat. destruct (chatIdSet (activeChatId (ui w)));
    simpl; repeat split; auto.
Qed.

Lemma flightInv_ext w w' :
  loading (ui w') = loading (ui w) -> sends w' = sends w ->
  flightInv w -> flightInv w'.
Proof. unfold flightInv. intros -> ->. auto. Qed.

Lemma step_flightInv e w w' : flightInv w -> step e w = Some w' -> flightInv w'.
Proof.
  intros Hw Hst. destruct e; simpl in Hst.
  - destruct (mounted w); try discriminate. injection Hst as <-.
    destruct (chatsEffect_frame now created (checkBackendHealth w))
      as [_ [Hl [_ [_ [Hs _]]]]].
    eapply flightInv_ext; cycle 2; [exact Hw | exact Hl | exact Hs].
  - injection Hst as <-.
    destruct (chatsEffect_frame now created w) as [_ [Hl [_ [_ [Hs _]]]]].
    eapply flightInv_ext; cycle 2; [exact Hw | exact Hl | exact Hs].
  - destruct (probing w); try discriminate. injection Hst as <-.
    eapply flightInv_ext; cycle 2; [exact Hw | reflexivity | reflexivity].
  - injection Hst as <-.
    eapply flightInv_ext; cycle 2; [exact Hw | reflexivity | reflexivity].
  - injection Hst as <-.
    destruct (handleSend_cases now stamp w) as [[-> _] | [a [_ [Hl [_ ->]]]]]; auto.
    right. simpl. split; auto.
    destruct Hw as [[_ ->] | [Hl' _]]; [eexists; reflexivity | congruence].
  - destruct (remove_nth k (sends w)) as [[d rest]|] eqn:E; try discriminate.
    injection Hst as <-.
    match goal with |- flightInv (handleSend_settled typeErrorText d r stamp ?w0) =>
      destruct (handleSend_settled_fields d r stamp w0)
        as [m [_ [_ [_ [_ [_ [Hl [_ [Hs _]]]]]]]]] end.
    left. split; auto. rewrite Hs. simpl.
    destruct Hw as [[_ Hn] | [_ [d0 Hd]]].
    + rewrite Hn in E. destruct k; discriminate.
    + rewrite Hd in E. destruct k as [|k]; simpl in E.
      * congruence.
      * destruct k; discriminate.
  - destruct (nth_error (chats (ui w)) n); try discriminate. injection Hst as <-.
    eapply flightInv_ext; cycle 2; [exact Hw | reflexivity | reflexivity].
  - injection Hst as <-.
    destruct (handleClearChat_frame w) as [_ [_ [Hl [_ [_ [Hs _]]]]]].
    eapply flightInv_ext; cycle 2; [exact Hw | exact Hl | exact Hs].
  - injection Hst as <-.
    eapply flightInv_ext; cycle 2; [exact Hw | reflexivity | reflexivity].
  - injection Hst as <-.
    eapply flightInv_ext; cycle 2; [exact Hw | reflexivity | reflexivity].
Qed.

Lemma reachable_flightInv w : reachable w -> flightInv w.
Proof.
  apply reachable_ind_inv.
  - left. auto.
  - intros e w0 w'. apply step_flightInv.
Qed.

(** *** The health probe *)

Lemma healthInv_ext w w' :
  backendStatus (ui w') = backendStatus (ui w) -> probes w' = probes w ->
  probing w' = probing w -> mounted w' = mounted w ->
  healthInv w -> healthInv w'.
Proof. unfold healthInv. intros -> -> -> ->. auto. Qed.

Lemma step_healthInv e w w' : healthInv w -> step e w = Some w' -> healthInv w'.
Proof.
  intros Hw Hst. destruct e; simpl in Hst.
  - destruct (mounted w) eqn:Em; try discriminate. injection Hst as <-.
    destruct (chatsEffect_frame now created (checkBackendHealth w))
      as [_ [_ [_ [Hb [_ [_ [Hp [Hg _]]]]]]]].
    destruct Hw as [H1 [_ H3]]. destruct (H1 Em) as [P0 _].
    pose proof (H3 (or_introl Em)) as Hc.
    unfold healthInv. simpl. rewrite Hb, Hp, Hg. simpl. rewrite P0.
    repeat split; auto; try discriminate.
  - injection Hst as <-.
    destruct (chatsEffect_frame now created w)
      as [_ [_ [_ [Hb [_ [_ [Hp [Hg Hm]]]]]]]].
    eapply healthInv_ext; cycle 4; [exact Hw | auto ..].
  - destruct (probing w) eqn:Ep; try discriminate. injection Hst as <-.
    destruct Hw as [H1 [H2 H3]].
    assert (Em : mounted w = true).
    { destruct (mounted w) eqn:Em; auto. destruct (H1 eq_refl). congruence. }
    unfold healthInv. simpl. rewrite Em.
    repeat split; auto; try discriminate; intros [|]; discriminate.
  - injection Hst as <-.
    eapply healthInv_ext; cycle 4; [exact Hw | reflexivity ..].
  - injection Hst as <-.
    destruct (handleSend_cases now stamp w) as [[-> _] | [a [_ [_ [_ ->]]]]];
      [exact Hw |].
    eapply healthInv_ext; cycle 4; [exact Hw | reflexivity ..].
  - destruct (remove_nth k (sends w)) as [[d rest]|] eqn:E; try discriminate.
    injection Hst as <-.
    match goal with |- healthInv (handleSend_settled typeErrorText d r stamp ?w0) =>
      destruct (handleSend_settled_fields d r stamp w0)
        as [m [_ [_ [_ [_ [_ [_ [Hb [_ [_ [Hp [Hg Hm]]]]]]]]]]]] end.
    eapply healthInv_ext; cycle 4; [exact Hw | auto ..].
  - destruct (nth_error (chats (ui w)) n); try discriminate. injection Hst as <-.
    eapply healthInv_ext; cycle 4; [exact Hw | reflexivity ..].
  - injection Hst as <-.
    destruct (handleClearChat_frame w)
      as [_ [_ [_ [_ [Hb [_ [_ [Hp [Hg Hm]]]]]]]]].
    eapply healthInv_ext; cycle 4; [exact Hw | auto ..].
  - injection Hst as <-.
    eapply healthInv_ext; cycle 4; [exact Hw | reflexivity ..].
  - injection Hst as <-.
    eapply healthInv_ext; cycle 4; [exact Hw | reflexivity ..].
Qed.

Lemma reachable_healthInv w : reachable w -> healthInv w.
Proof.
  apply reachable_ind_inv.
  - repeat split; auto. discriminate.
  - intros e w0 w'. apply step_healthInv.
Qed.

(** *** The claims on the chat store and the health monitor *)

(** C4.  [send] does nothing when a precondition fails: in a reachable
    world in which the trimmed composer text is empty, or a dispatch is in
    flight ([loading]), or there is no active chat, a click on Send leaves
    the world as it is.  In particular the messages of every chat are the
    same, no request is posted, none is awaiting a reply that was not, and
    the error shown to the user is unchanged. *)
Theorem send_is_noop_without_preconditions w now stamp :
  reachable w ->
  trim (message (ui w)) = [] \/ loading (ui w) = true \/
  activeChat (ui w) = None ->
  step (Send now stamp) w = Some w /\
  forall w', step (Send now stamp) w = Some w' ->
    map (fun c => List.length (Chat.messages c)) (chats (ui w')) =
    map (fun c => List.length (Chat.messages c)) (chats (ui w)) /\
    posted w' = posted w /\ sends w' = sends w /\
    error (ui w') = error (ui w).
Proof.
  intros Hw Hpre.
  assert (E : handleSend now stamp w = w).
  { destruct (handleSend_cases now stamp w) as [[E _] | [a [Ht [Hl [Ha _]]]]]; auto.
    exfalso. destruct Hpre as [H | [H | H]]; try congruence.
    pose proof (storeInv_activeChat (reachable_storeInv Hw)) as S.
    rewrite H in S. destruct S as [S _]. congruence. }
  simpl. rewrite E. split; auto.
  intros w' [= <-]. auto.
Qed.

(** C6, as the code has it.  When the chat collection is empty the effect
    on [chats] replaces it by exactly one chat, whose id is the decimal
    string of the clock reading, whose title is the fixed default "Chat",
    whose message log is empty and whose creation time is the time of its
    construction, and makes that chat the active one; the first commit
    does so from the initial state. *)
Theorem default_chat_created_when_empty w now created :
  chats (ui w) = [] ->
  let newChat := {| Chat.id := toStringZ now; Chat.title := lit "Chat";
                    Chat.messages := []; Chat.createdAt := created |} in
  chats (ui (chatsEffect now created w)) = [newChat] /\
  activeChatId (ui (chatsEffect now created w)) = Some (Chat.id newChat) /\
  activeChat (ui (chatsEffect now created w)) = Some newChat /\
  exists w0, step (Mount now created) initial = Some w0 /\
    chats (ui w0) = [newChat] /\ activeChat (ui w0) = Some newChat.
Proof.
  intros E newChat. unfold chatsEffect. rewrite E. simpl.
  repeat split.
  - unfold activeChat. simpl. now rewrite jsstring_eqb_refl.
  - eexists. split; [reflexivity |]. split; [reflexivity |].
    unfold activeChat. simpl. now rewrite jsstring_eqb_refl.
Qed.

(** The effect on [chats] leaves a non-empty collection alone. *)
Lemma chatsEffect_nonempty w now created :
  chats (ui w) <> [] -> chatsEffect now created w = w.
Proof. unfold chatsEffect. destruct (chats (ui w)); congruence. Qed.

(** C7.  In every reachable world with a non-empty chat collection
    [activeChatId] is the id of one of the chats, and every event (the
    effect that creates the default chat, a send and its reply, clearing,
    selecting a chat, ...) leads to a world where this holds again. *)
Theorem active_chat_id_references_a_chat w :
  reachable w ->
  activeValid (ui w) /\
  forall e w', step e w = Some w' -> activeValid (ui w').
Proof.
  intros Hw. split.
  - apply storeInv_activeValid, reachable_storeInv, Hw.
  - intros e w' Hst.
    apply storeInv_activeValid.
    eapply step_storeInv; [apply reachable_storeInv, Hw | exact Hst].
Qed.

(** C8.  Clearing the active chat [a] keeps the collection position by
    position: a chat with id [a] keeps its id, title and creation time and
    has no message left, any other chat is untouched; no chat is removed
    or added, and the rest of the state is unchanged. *)
Theorem clear_chat_empties_only_its_messages w a :
  chatIdSet (activeChatId (ui w)) = Some a ->
  List.length (chats (ui (handleClearChat w))) = List.length (chats (ui w)) /\
  (forall n c, nth_error (chats (ui w)) n = Some c ->
     exists c', nth_error (chats (ui (handleClearChat w))) n = Some c' /\
       Chat.id c' = Chat.id c /\ Chat.title c' = Chat.title c /\
       Chat.createdAt c' = Chat.createdAt c /\
       (Chat.id c = a -> Chat.messages c' = []) /\
       (Chat.id c <> a -> c' = c)) /\
  activeChatId (ui (handleClearChat w)) = activeChatId (ui w) /\
  message (ui (handleClearChat w)) = message (ui w) /\
  loading (ui (handleClearChat w)) = loading (ui w) /\
  error (ui (handleClearChat w)) = error (ui w) /\
  sends (handleClearChat w) = sends w.
Proof.
  intros Ha. unfold handleClearChat. rewrite Ha. simpl.
  split; [apply updateChat_length |].
  split; [| repeat split].
  intros n c Hn. rewrite updateChat_nth, Hn. simpl.
  eexists. split; [reflexivity |].
  destruct (jsstring_eqb (Chat.id c) a) eqn:E; simpl; repeat split; auto.
  - intros N. apply jsstring_eqb_eq in E. contradiction.
  - intros N. apply jsstring_eqb_neq in E. contradiction.
Qed.

Lemma healthStatus_ready r :
  healthStatus r = ready <->
  exists data, r = FetchResolved true (Normal data) /\
               truthy (get_optional data (lit "api_ready")) = true.
Proof.
  unfold healthStatus, healthData. split.
  - destruct r as [e | ok [data | e]]; try discriminate;
      destruct ok; simpl; try discriminate.
    destruct (truthy (get_optional data (lit "api_ready"))) eqn:T;
      try discriminate. intros _. now exists data.
  - intros [data [-> T]]. now rewrite T.
Qed.

Lemma healthStatus_not_checking r :
  healthStatus r = ready \/ healthStatus r = error_status.
Proof.
  unfold healthStatus. destruct (healthData r) as [data | e]; auto.
  destruct (truthy _); auto.
Qed.


(** *** The message dispatcher *)

Lemma updateChat_ext a f g l :
  (forall ms, f ms = g ms) -> updateChat a f l = updateChat a g l.
Proof.
  intros H. unfold updateChat. apply map_ext. intros c. now rewrite H.
Qed.

(** [sendToWatson] returns exactly on a 2xx response with a JSON body other
    than [null], and returns the [response] property of that body. *)
Lemma sendToWatson_returns r reply :
  sendToWatson typeErrorText r = Normal reply <->
  exists body, r = FetchResolved true (Normal body) /\
               get typeErrorText body (lit "response") = Normal reply.
Proof.
  unfold sendToWatson. split.
  - destruct r as [e | ok [body | e]]; try discriminate;
      destruct ok; simpl; try discriminate.
    + intros H. now exists body.
    + destruct (get typeErrorText body (lit "detail")); try discriminate.
      destruct (ToString typeErrorText _); discriminate.
  - intros [body [-> H]]. exact H.
Qed.

Lemma activeChat_updated (s : AppState) a f l c :
  activeChatId s = Some a ->
  chats s = updateChat a f l ->
  find (fun c0 => jsstring_eqb (Chat.id c0) a) l = Some c ->
  activeChat s = Some (Chat.with_messages c (f (Chat.messages c))).
Proof.
  intros Ha Hc Hf. unfold activeChat. rewrite Ha, Hc, updateChat_find, Hf.
  simpl. apply find_some in Hf as [_ Hf]. now rewrite Hf.
Qed.

(** A send that passes the guard, in a reachable world. *)
Lemma send_accepted w c now stamp :
  reachable w ->
  trim (message (ui w)) <> [] -> loading (ui w) = false ->
  activeChat (ui w) = Some c ->
  sends w = [] /\
  activeChatId (ui w) = Some (Chat.id c) /\
  find (fun c0 => jsstring_eqb (Chat.id c0) (Chat.id c)) (chats (ui w)) = Some c /\
  handleSend now stamp w =
  {| ui := {| chats :=
                updateChat (Chat.id c)
                  (fun ms => ms ++
                     [{| Message.id := toStringZ now;
                         Message.text := VStr (trim (message (ui w)));
                         Message.sender := user;
                         Message.timestamp := stamp |}])
                  (chats (ui w));
              activeChatId := activeChatId (ui w);
              message := []; loading := true; error := None;
              backendStatus := backendStatus (ui w);
              isSidebarOpen := isSidebarOpen (ui w) |};
     sends := sends w ++ [{| d_id := toStringZ now; d_activeChatId := Chat.id c |}];
     posted := posted w ++ [trim (message (ui w))];
     probes := probes w; probing := probing w; mounted := mounted w |}.
Proof.
  intros Hw Ht Hl Hc.
  pose proof (storeInv_activeChat (reachable_storeInv Hw)) as S.
  rewrite Hc in S. destruct S as [Ha _].
  destruct (chatIdSet_Some _ Ha) as [Ha' _].
  split; [destruct (reachable_flightInv Hw) as [[_ H] | [H _]]; congruence |].
  split; [exact Ha' |].
  split; [unfold activeChat in Hc; now rewrite Ha' in Hc |].
  destruct (handleSend_cases now stamp w) as [[_ N] | [a [_ [_ [Ha2 E]]]]].
  - exfalso. destruct N as [N | [N | N]]; congruence.
  - assert (a = Chat.id c) by congruence. subst a. exact E.
Qed.

(** C1.  A send that succeeds.  In a reachable world where the trimmed
    composer text is not empty, no dispatch is in flight and an active chat
    exists, a click on Send followed by a successful reply of the backend
    appends exactly two messages to the active chat, in this order: the
    user message, whose text is the trimmed input, and the bot message,
    whose text is the reply the backend supplied and whose id is the id of
    the user message followed by "_bot"; the other chats are unchanged and
    [loading] is false at the end. *)
Theorem successful_send_appends_user_then_bot w c now stamp r stamp' reply :
  reachable w ->
  trim (message (ui w)) <> [] -> loading (ui w) = false ->
  activeChat (ui w) = Some c ->
  sendToWatson typeErrorText r = Normal reply ->
  let userMsg := {| Message.id := toStringZ now;
                    Message.text := VStr (trim (message (ui w)));
                    Message.sender := user; Message.timestamp := stamp |} in
  let botMsg := {| Message.id := Message.id userMsg ++ lit "_bot";
                   Message.text := reply;
                   Message.sender := bot; Message.timestamp := stamp' |} in
  exists w',
    run [Send now stamp; ChatSettled 0 r stamp'] w = Some w' /\
    chats (ui w') =
      updateChat (Chat.id c) (fun ms => ms ++ [userMsg; botMsg]) (chats (ui w)) /\
    activeChat (ui w') =
      Some (Chat.with_messages c (Chat.messages c ++ [userMsg; botMsg])) /\
    loading (ui w') = false /\ error (ui w') = None /\ sends w' = [] /\
    posted w' = posted w ++ [trim (message (ui w))].
Proof.
  intros Hw Ht Hl Hc Hr userMsg botMsg.
  destruct (send_accepted now stamp Hw Ht Hl Hc) as [Hs [Ha [Hf E]]].
  simpl. rewrite E. simpl. rewrite Hs. simpl.
  unfold handleSend_settled. rewrite Hr. simpl.
  eexists. split; [reflexivity |]. simpl.
  assert (Hch : updateChat (Chat.id c) (fun ms => ms ++ [botMsg])
                  (updateChat (Chat.id c) (fun ms => ms ++ [userMsg]) (chats (ui w))) =
                updateChat (Chat.id c) (fun ms => ms ++ [userMsg; botMsg]) (chats (ui w))).
  { rewrite updateChat_updateChat. apply updateChat_ext.
    intros ms. now rewrite <- app_assoc. }
  split; [exact Hch |].
  split; [| repeat split].
  apply (@activeChat_updated _ (Chat.id c) (fun ms => ms ++ [userMsg; botMsg])
           (chats (ui w)) c); [exact Ha | exact Hch | exact Hf].
Qed.

(** X19.  A send that fails.  In a reachable world where the trimmed
    composer text is not empty, no dispatch is in flight and an active chat
    exists, a click on Send followed by a failure of the remote call appends
    the user message and then a bot message whose id is the id of the user
    message followed by "_err" and whose text is the warning sign followed
    by the failure reason; [error] is set to that reason and [loading] is
    false at the end.  The reason is the message of the error the call
    threw.  For a response that is not a 2xx one and whose body is a JSON
    object, it is the body's [detail] when that is a non-empty string,
    "Request failed" when [detail] is absent or falsy (empty, [null], zero
    or [false]), and in general the string [new Error] makes of
    [detail || 'Request failed'], when it makes one; for a rejected request
    it is the message of the error of the request. *)
Theorem failed_send_appends_user_then_error w c now stamp r stamp' err :
  reachable w ->
  trim (message (ui w)) <> [] -> loading (ui w) = false ->
  activeChat (ui w) = Some c ->
  sendToWatson typeErrorText r = Throw err ->
  let reason := match err with
                | ThrownError m => m
                | ThrownOther => lit "Unexpected error"
                end in
  let userMsg := {| Message.id := toStringZ now;
                    Message.text := VStr (trim (message (ui w)));
                    Message.sender := user; Message.timestamp := stamp |} in
  let errMsg := {| Message.id := Message.id userMsg ++ lit "_err";
                   Message.text := VStr (warningSign ++ reason);
                   Message.sender := bot; Message.timestamp := stamp' |} in
  (exists w',
     run [Send now stamp; ChatSettled 0 r stamp'] w = Some w' /\
     chats (ui w') =
       updateChat (Chat.id c) (fun ms => ms ++ [userMsg; errMsg]) (chats (ui w)) /\
     activeChat (ui w') =
       Some (Chat.with_messages c (Chat.messages c ++ [userMsg; errMsg])) /\
     loading (ui w') = false /\ error (ui w') = Some reason /\ sends w' = []) /\
  (forall fields s,
     r = FetchResolved false (Normal (VObj fields)) ->
     lookup (lit "detail") fields = VStr s -> s <> [] -> reason = s) /\
  (forall fields,
     r = FetchResolved false (Normal (VObj fields)) ->
     truthy (lookup (lit "detail") fields) = false ->
     reason = lit "Request failed") /\
  (forall body detail text,
     r = FetchResolved false (Normal body) ->
     get typeErrorText body (lit "detail") = Normal detail ->
     ToString typeErrorText (or_else detail (VStr (lit "Request failed")))
       = Normal text ->
     reason = text) /\
  (forall e, r = FetchRejected e -> err = e).
Proof.
  intros Hw Ht Hl Hc Hr reason userMsg errMsg.
  destruct (send_accepted now stamp Hw Ht Hl Hc) as [Hs [Ha [Hf E]]].
  split; [| repeat split].
  - simpl. rewrite E. simpl. rewrite Hs. simpl.
    unfold handleSend_settled. rewrite Hr. simpl.
    eexists. split; [reflexivity |]. simpl.
    assert (Hch : updateChat (Chat.id c) (fun ms => ms ++ [errMsg])
                    (updateChat (Chat.id c) (fun ms => ms ++ [userMsg]) (chats (ui w))) =
                  updateChat (Chat.id c) (fun ms => ms ++ [userMsg; errMsg]) (chats (ui w))).
    { rewrite updateChat_updateChat. apply updateChat_ext.
      intros ms. now rewrite <- app_assoc. }
    split; [exact Hch |].
    split; [| repeat split].
    apply (@activeChat_updated _ (Chat.id c) (fun ms => ms ++ [userMsg; errMsg])
             (chats (ui w)) c); [exact Ha | exact Hch | exact Hf].
  - intros fields s -> Hd Hne. unfold sendToWatson in Hr.
    simpl in Hr. rewrite Hd in Hr. unfold or_else in Hr. simpl in Hr.
    destruct s; [contradiction |]. simpl in Hr. injection Hr as <-. reflexivity.
  - intros fields -> Hd. unfold sendToWatson in Hr.
    simpl in Hr. unfold or_else in Hr. rewrite Hd in Hr. simpl in Hr.
    injection Hr as <-. reflexivity.
  - intros body detail text -> Hd Hx. unfold sendToWatson in Hr.
    simpl in Hr. rewrite Hd, Hx in Hr. injection Hr as <-. reflexivity.
  - intros e ->. unfold sendToWatson in Hr. congruence.
Qed.

(** *** What an event does to the chats *)

Lemma handleSend_sendStarts now stamp w :
  sendStarts w = false -> handleSend now stamp w = w.
Proof.
  unfold sendStarts, handleSend.
  destruct (trim (message (ui w))); auto.
  destruct (loading (ui w)); auto.
  destruct (chatIdSet (activeChatId (ui w))); auto. discriminate.
Qed.

Lemma step_chatsStep e w w' :
  step e w = Some w' -> chatsStep w w' (clockOf e w).
Proof.
  intros Hst. destruct e; simpl in Hst; simpl clockOf.
  - destruct (mounted w); try discriminate. injection Hst as <-.
    unfold chatsEffect. simpl.
    destruct (chats (ui w)) eqn:E.
    + eapply cs_default; simpl; eauto.
    + apply cs_same; simpl; auto.
  - injection Hst as <-. unfold chatsEffect.
    destruct (chats (ui w)) eqn:E.
    + eapply cs_default; simpl; eauto.
    + apply cs_same; simpl; auto.
  - destruct (probing w); try discriminate. injection Hst as <-.
    apply cs_same; reflexivity.
  - injection Hst as <-. apply cs_same; reflexivity.
  - injection Hst as <-.
    destruct (sendStarts w) eqn:G.
    + destruct (handleSend_cases now stamp w) as [[_ N] | [a [Ht [Hl [Ha ->]]]]].
      * exfalso. unfold sendStarts in G.
        destruct (trim (message (ui w))); [discriminate |].
        destruct (loading (ui w)); [discriminate |].
        destruct (chatIdSet (activeChatId (ui w))); [| discriminate].
        destruct N as [N | [N | N]]; discriminate.
      * apply cs_send with
          (a := a)
          (m := {| Message.id := toStringZ now;
                   Message.text := VStr (trim (message (ui w)));
                   Message.sender := user; Message.timestamp := stamp |});
          simpl; auto.
    + rewrite (handleSend_sendStarts now stamp w G). apply cs_same; reflexivity.
  - destruct (remove_nth k (sends w)) as [[d rest]|] eqn:E; try discriminate.
    injection Hst as <-.
    match goal with |- chatsStep _ (handleSend_settled typeErrorText d r stamp ?w0) _ =>
      destruct (handleSend_settled_fields d r stamp w0)
        as [m [Hm [_ [Hi [Hc [_ [_ [_ [Hs _]]]]]]]]] end.
    eapply cs_settled; eauto.
  - destruct (nth_error (chats (ui w)) n); try discriminate. injection Hst as <-.
    apply cs_same; reflexivity.
  - injection Hst as <-. unfold handleClearChat.
    destruct (chatIdSet (activeChatId (ui w))) as [a|].
    + apply cs_clear with (a := a); reflexivity.
    + apply cs_same; reflexivity.
  - injection Hst as <-. apply cs_same; reflexivity.
  - injection Hst as <-. apply cs_same; reflexivity.
Qed.

(** *** Pairs of messages do not interleave *)

Lemma paired_append_user ms u :
  Message.sender u = user ->
  paired None ms -> paired (Some (Message.id u)) (ms ++ [u]).
Proof.
  intros Hu. induction ms as [|m rest IH]; simpl.
  - intros _. now rewrite Hu.
  - destruct (Message.sender m); [| exact IH].
    destruct rest as [|b rest']; simpl.
    + discriminate.
    + intros [H1 [H2 H3]]. split; [auto | split; [auto | exact (IH H3)]].
Qed.

Lemma paired_append_bot i ms b :
  Message.sender b = bot ->
  Message.id b = i ++ lit "_bot" \/ Message.id b = i ++ lit "_err" ->
  paired (Some i) ms -> paired None (ms ++ [b]).
Proof.
  intros Hb Hi. induction ms as [|m rest IH]; simpl.
  - intros _. now rewrite Hb.
  - destruct (Message.sender m); [| exact IH].
    destruct rest as [|b' rest']; simpl.
    + intros [= <-]. rewrite Hb. auto.
    + intros [H1 [H2 H3]]. split; [auto | split; [auto | exact (IH H3)]].
Qed.

Lemma step_pairedInv e w w' :
  flightInv w -> pairedInv w -> step e w = Some w' -> pairedInv w'.
Proof.
  intros Hf Hp Hst. apply step_chatsStep in Hst.
  destruct Hst as [Hc Hs | c0 He Hc Hm Hs | a now m Hl Hu Hi Hc Hs
                  | k d rest m Hr Hs Hb Hi Hc | a Hc Hs];
    intros c' Hin; rewrite Hc in Hin; unfold pendingFor; rewrite Hs.
  - apply (Hp c' Hin).
  - destruct Hin as [<- | []]. rewrite Hm. exact I.
  - assert (Hn : sends w = []) by (destruct Hf as [[_ H] | [H _]]; congruence).
    rewrite Hn. simpl.
    apply updateChat_In in Hin as [c [Hin ->]].
    specialize (Hp c Hin). unfold pendingFor in Hp. rewrite Hn in Hp.
    destruct (jsstring_eqb (Chat.id c) a) eqn:E; simpl; rewrite E; auto.
    rewrite <- Hi. now apply paired_append_user.
  - destruct Hf as [[_ Hn] | [_ [d0 Hd]]]; rewrite ?Hn, ?Hd in Hr;
      [destruct k; discriminate |].
    assert (d0 = d /\ rest = []) as [-> ->].
    { destruct k as [|[|k]]; simpl in Hr; try discriminate.
      injection Hr as -> <-. auto. }
    apply updateChat_In in Hin as [c [Hin ->]].
    specialize (Hp c Hin). unfold pendingFor in Hp. rewrite Hd in Hp.
    destruct (jsstring_eqb (Chat.id c) (d_activeChatId d)) eqn:E; simpl.
    + eapply paired_append_bot; eauto.
    + exact Hp.
  - apply updateChat_In in Hin as [c [Hin ->]].
    specialize (Hp c Hin). unfold pendingFor in Hp.
    destruct (jsstring_eqb (Chat.id c) a) eqn:E; simpl; [destruct (sends w) as [|d ?]; try exact I; now destruct jsstring_eqb | exact Hp].
Qed.

Lemma reachable_pairedInv w : reachable w -> flightInv w /\ pairedInv w.
Proof.
  apply (reachable_ind_inv (fun w0 => flightInv w0 /\ pairedInv w0)).
  - split; [left; auto | intros c []].
  - intros e w0 w' [Hf Hp] Hst. split.
    + eapply step_flightInv; eauto.
    + eapply step_pairedInv; eauto.
Qed.

(** C5.  At most one dispatch is in flight.  In every reachable world at
    most one call of [handleSend] awaits its reply, and [loading] is true
    exactly when one does, that is from the start of a dispatch to its
    completion; a click on Send while [loading] is true changes nothing,
    whatever the call in flight comes to; and in every chat each user
    message is directly followed by its own reply, only the user message of
    the dispatch in flight being still without one, so the pairs of
    distinct dispatches do not interleave. *)
Theorem one_dispatch_in_flight w :
  reachable w ->
  (List.length (sends w) <= 1)%nat /\
  (loading (ui w) = true <-> sends w <> []) /\
  (loading (ui w) = true ->
   forall now stamp, step (Send now stamp) w = Some w) /\
  (forall c, In c (chats (ui w)) -> paired (pendingFor w c) (Chat.messages c)).
Proof.
  intros Hw. destruct (reachable_pairedInv Hw) as [Hf Hp].
  split; [| split; [| split; [| exact Hp]]].
  - destruct Hf as [[_ ->] | [_ [d ->]]]; simpl; lia.
  - destruct Hf as [[Hl ->] | [Hl [d ->]]]; rewrite Hl; split;
      congruence || discriminate.
  - intros Hl now stamp. simpl. f_equal.
    destruct (handleSend_cases now stamp w) as [[E _] | [a [_ [N _]]]];
      congruence.
Qed.

(** *** The reply goes to the chat of its dispatch *)

Lemma step_keeps_dispatch e w w' d :
  notSettled e = true ->
  loading (ui w) = true -> sends w = [d] ->
  step e w = Some w' ->
  loading (ui w') = true /\ sends w' = [d].
Proof.
  intros Hn Hl Hs Hst. destruct e; simpl in Hst; try discriminate Hn.
  - destruct (mounted w); try discriminate. injection Hst as <-.
    destruct (chatsEffect_frame now created (checkBackendHealth w))
      as [_ [Hl' [_ [_ [Hs' _]]]]].
    simpl. rewrite Hl', Hs'. auto.
  - injection Hst as <-.
    destruct (chatsEffect_frame now created w) as [_ [Hl' [_ [_ [Hs' _]]]]].
    rewrite Hl', Hs'. auto.
  - destruct (probing w); try discriminate. injection Hst as <-. auto.
  - injection Hst as <-. auto.
  - injection Hst as <-.
    destruct (handleSend_cases now stamp w) as [[-> _] | [a [_ [N _]]]];
      [auto | congruence].
  - destruct (nth_error (chats (ui w)) n); try discriminate.
    injection Hst as <-. auto.
  - injection Hst as <-.
    destruct (handleClearChat_frame w) as [_ [_ [Hl' [_ [_ [Hs' _]]]]]].
    rewrite Hl', Hs'. auto.
  - injection Hst as <-. auto.
  - injection Hst as <-. auto.
Qed.

Lemma run_keeps_dispatch es w w' d :
  forallb notSettled es = true ->
  loading (ui w) = true -> sends w = [d] ->
  run es w = Some w' ->
  loading (ui w') = true /\ sends w' = [d].
Proof.
  revert w. induction es as [|e es IH]; simpl; intros w Hn Hl Hs Hr.
  - injection Hr as <-. auto.
  - apply andb_true_iff in Hn as [Hn1 Hn2].
    destruct (step e w) as [w1|] eqn:E; try discriminate.
    destruct (step_keeps_dispatch e w Hn1 Hl Hs E) as [Hl1 Hs1].
    apply (IH w1); auto.
Qed.

(** C3.  The reply is appended to the chat of its dispatch.  Take a send
    that passes its guard while chat [a] is the active one, then any events
    before the request settles (among them clicks on other chats of the
    list, which change [activeChatId]), then the outcome [r] of the
    request.  The outcome can be delivered, and it appends one bot message,
    the reply or the error message, to the chats whose id is [a] and to no
    other chat, whatever [activeChatId] is by then. *)
Theorem reply_goes_to_chat_of_dispatch w a now stamp es w2 r stamp' :
  trim (message (ui w)) <> [] -> loading (ui w) = false -> sends w = [] ->
  chatIdSet (activeChatId (ui w)) = Some a ->
  forallb notSettled es = true ->
  run es (handleSend now stamp w) = Some w2 ->
  exists w3 m,
    step (ChatSettled 0 r stamp') w2 = Some w3 /\
    Message.sender m = bot /\
    (Message.id m = toStringZ now ++ lit "_bot" \/
     Message.id m = toStringZ now ++ lit "_err") /\
    chats (ui w3) = updateChat a (fun ms => ms ++ [m]) (chats (ui w2)) /\
    activeChatId (ui w3) = activeChatId (ui w2).
Proof.
  intros Ht Hl Hs Ha Hn Hr.
  destruct (handleSend_cases now stamp w) as [[_ N] | [a' [_ [_ [Ha' E]]]]].
  { exfalso. destruct N as [N | [N | N]]; congruence. }
  assert (a' = a) by congruence. subst a'.
  rewrite E in Hr.
  apply run_keeps_dispatch
    with (d := {| d_id := toStringZ now; d_activeChatId := a |}) in Hr;
    [| exact Hn | reflexivity | simpl; now rewrite Hs].
  destruct Hr as [_ Hs2]. simpl. rewrite Hs2. simpl.
  match goal with |- exists w3 m, Some (handleSend_settled typeErrorText ?d r stamp' ?w0) = _ /\ _ =>
    destruct (handleSend_settled_fields d r stamp' w0)
      as [m [Hb [_ [Hi [Hc [Hac _]]]]]] end.
  eexists. exists m. split; [reflexivity |]. simpl in *. auto.
Qed.

(** *** Message ids *)

Lemma uniqInv_ext U w w' :
  chats (ui w') = chats (ui w) -> sends w' = sends w ->
  uniqInv U w -> uniqInv U w'.
Proof. unfold uniqInv. intros -> ->. auto. Qed.

Lemma updateChat_append_messages a m l c' m' :
  In c' (updateChat a (fun ms => ms ++ [m]) l) -> In m' (Chat.messages c') ->
  (exists c, In c l /\ In m' (Chat.messages c)) \/ m' = m.
Proof.
  intros Hc Hm. apply updateChat_In in Hc as [c [Hc ->]].
  destruct (jsstring_eqb (Chat.id c) a); simpl in Hm.
  - apply in_app_or in Hm as [Hm | [<- | []]]; eauto.
  - eauto.
Qed.

Lemma stem_reply (t : Z) (i : jsstring) :
  i = toStringZ t ++ lit "_bot" \/ i = toStringZ t ++ lit "_err" ->
  stem i = toStringZ t.
Proof. intros [-> | ->]; [apply stem_bot | apply stem_err]. Qed.

Lemma NoDup_snoc (A : Type) (l : list A) (x : A) :
  NoDup l -> ~ In x l -> NoDup (l ++ [x]).
Proof.
  intros Hl Hx. apply NoDup_app; auto.
  - constructor; [intros [] | constructor].
  - intros y Hy [<- | []]. contradiction.
Qed.

Lemma chatsStep_uniqInv U w w' clock :
  uniqInv U w -> chatsStep w w' clock ->
  (forall t, In t clock -> ~ In t U) ->
  uniqInv (clock ++ U) w'.
Proof.
  intros [H1 [H2 H3]] Hst Hfresh.
  destruct Hst as [Hc Hs | c0 He Hc Hm Hs | a now m Hl Hu Hi Hc Hs
                  | k d rest m Hr Hs Hb Hi Hc | a Hc Hs]; simpl.
  - apply (@uniqInv_ext U w w' Hc Hs). exact (conj H1 (conj H2 H3)).
  - unfold uniqInv. rewrite Hc, Hs. split; [| split; auto].
    + intros c [<- | []]. rewrite Hm. split; [constructor | intros m []].
    + intros d Hd. split; [apply (H2 d Hd) |].
      intros c m [<- | []]. rewrite Hm. intros [].
  - assert (Hnow : ~ In now U) by (apply Hfresh; now left).
    assert (Hold : forall c m0, In c (chats (ui w)) -> In m0 (Chat.messages c) ->
                     Message.id m0 <> toStringZ now /\
                     Message.id m0 <> toStringZ now ++ lit "_bot" /\
                     Message.id m0 <> toStringZ now ++ lit "_err").
    { intros c m0 Hc0 Hm0. destruct (H1 c Hc0) as [_ R].
      destruct (R m0 Hm0) as [t [Ht Est]].
      repeat split; intros Eq; rewrite Eq in Est;
        rewrite ?stem_toStringZ, ?stem_bot, ?stem_err in Est;
        apply toStringZ_inj in Est; congruence. }
    unfold uniqInv. rewrite Hc, Hs. split; [| split].
    + intros c' Hc'. apply updateChat_In in Hc' as [c [Hc0 ->]].
      destruct (H1 c Hc0) as [N R].
      destruct (jsstring_eqb (Chat.id c) a); simpl.
      * split.
        -- rewrite map_app. simpl. apply NoDup_snoc; auto.
           intros Hin. apply in_map_iff in Hin as [m0 [E0 Hm0]].
           destruct (Hold c m0 Hc0 Hm0) as [X _]. congruence.
        -- intros m0 Hm0. apply in_app_or in Hm0 as [Hm0 | [<- | []]].
           ++ destruct (R m0 Hm0) as [t [Ht Est]]. exists t. split; [right; exact Ht | exact Est].
           ++ exists now. split; [now left |]. rewrite Hi. apply stem_toStringZ.
      * split; auto. intros m0 Hm0.
        destruct (R m0 Hm0) as [t [Ht Est]]. exists t. split; [right; exact Ht | exact Est].
    + intros d Hd. apply in_app_or in Hd as [Hd | [<- | []]].
      * destruct (H2 d Hd) as [[t [Ht Et]] F]. split.
        -- exists t. split; [right; exact Ht | exact Et].
        -- intros c' m' Hc' Hm'.
           destruct (updateChat_append_messages _ _ _ _ _ Hc' Hm')
             as [[c [Hc0 Hm0]] | ->].
           ++ apply (F c m' Hc0 Hm0).
           ++ rewrite Hi. split; apply (plain_neq_suffixed now).
      * simpl. split.
        -- exists now. split; [now left | reflexivity].
        -- intros c' m' Hc' Hm'.
           destruct (updateChat_append_messages _ _ _ _ _ Hc' Hm')
             as [[c [Hc0 Hm0]] | ->].
           ++ destruct (Hold c m' Hc0 Hm0) as [_ [X Y]]. auto.
           ++ rewrite Hi. split; apply (plain_neq_suffixed now).
    + rewrite map_app. simpl. apply NoDup_snoc; auto.
      intros Hin. apply in_map_iff in Hin as [d [Ed Hd]].
      destruct (H2 d Hd) as [[t [Ht Et]] _].
      rewrite Et in Ed. apply toStringZ_inj in Ed. congruence.
  - pose proof (remove_nth_perm _ _ Hr) as P.
    assert (Hd : In d (sends w)).
    { eapply Permutation_in; [apply Permutation_sym, P | now left]. }
    assert (Hrest : forall d', In d' rest -> In d' (sends w)).
    { intros d' Hd'. eapply Permutation_in; [apply Permutation_sym, P | now right]. }
    assert (N : NoDup (map d_id (d :: rest))).
    { eapply Permutation_NoDup; [apply Permutation_map, P | exact H3]. }
    simpl in N. apply NoDup_cons_iff in N as [Nd Nrest].
    destruct (H2 d Hd) as [[t [Ht Et]] F].
    assert (Est : stem (Message.id m) = toStringZ t).
    { apply stem_reply. rewrite <- Et. exact Hi. }
    unfold uniqInv. rewrite Hc, Hs. split; [| split; auto].
    + intros c' Hc'. apply updateChat_In in Hc' as [c [Hc0 ->]].
      destruct (H1 c Hc0) as [Nc R].
      destruct (jsstring_eqb (Chat.id c) (d_activeChatId d)); simpl; auto.
      split.
      * rewrite map_app. simpl. apply NoDup_snoc; auto.
        intros Hin. apply in_map_iff in Hin as [m0 [E0 Hm0]].
        destruct (F c m0 Hc0 Hm0) as [X Y]. destruct Hi; congruence.
      * intros m0 Hm0. apply in_app_or in Hm0 as [Hm0 | [<- | []]]; eauto.
    + intros d' Hd'. destruct (H2 d' (Hrest d' Hd')) as [[t' [Ht' Et']] F'].
      split; [eauto |].
      intros c' m' Hc' Hm'.
      destruct (updateChat_append_messages _ _ _ _ _ Hc' Hm')
        as [[c [Hc0 Hm0]] | ->].
      * apply (F' c m' Hc0 Hm0).
      * assert (Hne : toStringZ t <> toStringZ t').
        { intros Eq. apply Nd. apply in_map_iff. exists d'. split; congruence. }
        rewrite Et'. split; intros Eq; rewrite Eq in Est;
          rewrite ?stem_bot, ?stem_err in Est; congruence.
  - unfold uniqInv. rewrite Hc, Hs. split; [| split; auto].
    + intros c' Hc'. apply updateChat_In in Hc' as [c [Hc0 ->]].
      destruct (jsstring_eqb (Chat.id c) a); simpl.
      * split; [constructor | intros m []].
      * apply (H1 c Hc0).
    + intros d Hd. destruct (H2 d Hd) as [X F]. split; auto.
      intros c' m' Hc' Hm'. apply updateChat_In in Hc' as [c [Hc0 ->]].
      destruct (jsstring_eqb (Chat.id c) a); simpl in Hm'; [destruct Hm' |].
      apply (F c m' Hc0 Hm').
Qed.

Lemma run_uniqInv es :
  forall U w w',
    uniqInv U w -> run es w = Some w' ->
    NoDup (clocksRead typeErrorText es w) ->
    (forall t, In t (clocksRead typeErrorText es w) -> ~ In t U) ->
    exists U', uniqInv U' w'.
Proof.
  induction es as [|e es IH]; simpl; intros U w w' Hu Hr Hn Hf.
  - injection Hr as <-. now exists U.
  - destruct (step e w) as [w1|] eqn:E; try discriminate.
    apply (IH (clockOf e w ++ U) w1 w').
    + apply chatsStep_uniqInv with (w := w); auto.
      * now apply step_chatsStep.
      * intros t Ht. apply Hf, in_or_app. now left.
    + exact Hr.
    + eapply NoDup_app_remove_l, Hn.
    + intros t Ht Hin. apply in_app_or in Hin as [Hin | Hin].
      * clear - Hn Ht Hin. revert Hn.
        induction (clockOf e w) as [|x l IHl]; simpl; [destruct Hin |].
        intros N. apply NoDup_cons_iff in N as [N1 N2].
        destruct Hin as [-> | Hin]; [| auto].
        apply N1, in_or_app. now right.
      * apply (Hf t); auto. apply in_or_app. now right.
Qed.

(** C10, as the code has it.  Message ids come from the clock: the id of a
    user message is the decimal string of the value [Date.now()] had when
    it was sent.  In every world reached by a run in which the clock values
    read by [handleSend] are pairwise distinct, no two messages of a chat
    have the same id. *)
Theorem message_ids_unique_when_clock_values_differ es w :
  run es initial = Some w ->
  NoDup (clocksRead typeErrorText es initial) ->
  forall c, In c (chats (ui w)) -> NoDup (map Message.id (Chat.messages c)).
Proof.
  intros Hr Hn.
  destruct (@run_uniqInv es [] initial w) as [U [H1 _]]; auto.
  - split; [intros c [] | split; [intros d [] | constructor]].
  - intros c Hc. apply (H1 c Hc).
Qed.

End Properties.

(** ** Further properties of the component *)

Section Further.

Variable typeErrorText : value -> jsstring -> jsstring.

Local Abbreviation step := (step typeErrorText).
Local Abbreviation run := (run typeErrorText).
Local Abbreviation reachable := (reachable typeErrorText).

(** *** The send button and the guard of [handleSend] *)

(** X1.  In a reachable world the send button is disabled exactly when
    [handleSend] would return at its guard: a click on a disabled button, or
    Enter then, changes nothing, and with the button enabled a send always
    starts: the trimmed text is posted, [loading] is set, the composer is
    emptied and the user message is the last one shown. *)
Theorem send_button_tells_whether_send_starts w now stamp :
  reachable w ->
  (sendDisabled (ui w) = true <-> handleSend now stamp w = w) /\
  (sendDisabled (ui w) = false ->
   posted (handleSend now stamp w) = posted w ++ [trim (message (ui w))] /\
   loading (ui (handleSend now stamp w)) = true /\
   message (ui (handleSend now stamp w)) = [] /\
   shownMessages (ui (handleSend now stamp w)) =
     shownMessages (ui w) ++
     [{| Message.id := toStringZ now;
         Message.text := VStr (trim (message (ui w)));
         Message.sender := user; Message.timestamp := stamp |}]).
Proof.
  intros Hw.
  pose proof (storeInv_activeChat (reachable_storeInv Hw)) as S.
  unfold sendDisabled, shownMessages.
  destruct (handleSend_cases now stamp w) as [[E N] | [a [Ht [Hl [Ha E]]]]].
  - assert (D : negb (truthy (VStr (trim (message (ui w))))) || loading (ui w) ||
                match activeChat (ui w) with Some _ => false | None => true end = true).
    { destruct N as [N | [N | N]].
      - rewrite N. reflexivity.
      - rewrite N. apply orb_true_iff. left. apply orb_true_r.
      - destruct (activeChat (ui w)); [destruct S; congruence | apply orb_true_r]. }
    rewrite D. split; [tauto | discriminate].
  - destruct (activeChat (ui w)) as [c|] eqn:Hc; [| destruct S; congruence].
    destruct S as [S _]. assert (a = Chat.id c) by congruence. subst a.
    assert (D : negb (truthy (VStr (trim (message (ui w))))) || loading (ui w) || false
                = false).
    { rewrite Hl. simpl. destruct (trim (message (ui w))); [contradiction | reflexivity]. }
    rewrite D. split.
    + split; [discriminate |]. intros Eq. rewrite Eq in E.
      apply (f_equal (fun x => loading (ui x))) in E. simpl in E. congruence.
    + intros _. rewrite E. simpl. repeat split.
      destruct (chatIdSet_Some _ S) as [Ha' _].
      assert (F : find (fun c0 => jsstring_eqb (Chat.id c0) (Chat.id c)) (chats (ui w)) = Some c).
      { unfold activeChat in Hc. now rewrite Ha' in Hc. }
      match goal with |- context [activeChat ?s] =>
        rewrite (@activeChat_updated s (Chat.id c)
                   (fun ms => ms ++
                      [{| Message.id := toStringZ now;
                          Message.text := VStr (trim (message (ui w)));
                          Message.sender := user; Message.timestamp := stamp |}])
                   (chats (ui w)) c Ha' eq_refl F) end.
      reflexivity.
Qed.

(** *** The single chat *)

Lemma step_mounted e w w' :
  step e w = Some w' -> mounted w' = true ->
  mounted w = true \/ chats (ui w') <> [].
Proof.
  intros Hst Hm. destruct e; simpl in Hst.
  - destruct (mounted w); try discriminate. injection Hst as <-. right. simpl.
    unfold chatsEffect. simpl. destruct (chats (ui w)) eqn:E; simpl; try rewrite E; discriminate.
  - injection Hst as <-.
    destruct (chatsEffect_frame now created w) as [_ [_ [_ [_ [_ [_ [_ [_ H]]]]]]]].
    left. congruence.
  - destruct (probing w); try discriminate. injection Hst as <-. now left.
  - injection Hst as <-. now left.
  - injection Hst as <-.
    destruct (handleSend_cases now stamp w) as [[E _] | [a [_ [_ [_ E]]]]];
      rewrite E in Hm; now left.
  - destruct (remove_nth k (sends w)) as [[d rest]|]; try discriminate.
    injection Hst as <-.
    match type of Hm with mounted (handleSend_settled _ d r stamp ?w0) = _ =>
      destruct (handleSend_settled_fields typeErrorText d r stamp w0)
        as [m [_ [_ [_ [_ [_ [_ [_ [_ [_ [_ [_ H]]]]]]]]]]]] end.
    left. rewrite H in Hm. exact Hm.
  - destruct (nth_error (chats (ui w)) n); try discriminate.
    injection Hst as <-. now left.
  - injection Hst as <-.
    destruct (handleClearChat_frame w) as [_ [_ [_ [_ [_ [_ [_ [_ [_ H]]]]]]]]].
    left. congruence.
  - injection Hst as <-. now left.
  - injection Hst as <-. now left.
Qed.

Lemma updateChat_nonempty a f l : l <> [] -> updateChat a f l <> [].
Proof. destruct l; simpl; congruence. Qed.

Lemma reachable_single_chat w :
  reachable w ->
  (List.length (chats (ui w)) <= 1)%nat /\
  (mounted w = true -> chats (ui w) <> []).
Proof.
  apply (reachable_ind_inv
           (fun w0 => (List.length (chats (ui w0)) <= 1)%nat /\
                      (mounted w0 = true -> chats (ui w0) <> []))).
  - split; simpl; [lia | discriminate].
  - intros e w0 w' [L M] Hst. split.
    + destruct (step_chatsStep _ _ _ Hst)
        as [Hc Hs | c0 He Hc Hm Hs | a now m Hl Hu Hi Hc Hs
           | k d rest m Hr Hs Hb Hi Hc | a Hc Hs];
        rewrite Hc; rewrite ?updateChat_length; simpl; auto.
    + intros Hm. destruct (step_mounted _ _ Hst Hm) as [H | H]; auto.
      specialize (M H).
      destruct (step_chatsStep _ _ _ Hst)
        as [Hc Hs | c0 He Hc Hm' Hs | a now m Hl Hu Hi Hc Hs
           | k d rest m Hr Hs Hb Hi Hc | a Hc Hs];
        rewrite Hc; try apply updateChat_nonempty; auto; discriminate.
Qed.

(** X2.  There is never more than one chat, and once the component is
    mounted there is exactly one, which is the active chat: the clear button
    is shown, the textarea is disabled exactly while a dispatch is in flight,
    and a click on an entry of the chat list leaves the active chat as it
    is. *)
Theorem the_single_chat_is_active w :
  reachable w ->
  (List.length (chats (ui w)) <= 1)%nat /\
  (mounted w = true ->
   exists c, chats (ui w) = [c] /\ activeChat (ui w) = Some c /\
             clearButtonShown (ui w) = true /\
             textareaDisabled (ui w) = loading (ui w)) /\
  (forall n w', step (SelectChat n) w = Some w' ->
     activeChatId (ui w') = activeChatId (ui w) /\
     chats (ui w') = chats (ui w)).
Proof.
  intros Hw. destruct (reachable_single_chat Hw) as [L M].
  pose proof (reachable_storeInv Hw) as S.
  pose proof (storeInv_activeChat S) as A.
  split; [exact L |]. split.
  - intros Hm. specialize (M Hm).
    destruct (chats (ui w)) as [|c [|c2 l]] eqn:E; [contradiction | | simpl in L; lia].
    exists c. split; [reflexivity |].
    unfold clearButtonShown, textareaDisabled.
    destruct (activeChat (ui w)) as [c'|]; [| destruct A; discriminate].
    destruct A as [_ [<- | []]]. auto.
  - intros n w' Hst. simpl in Hst.
    destruct (nth_error (chats (ui w)) n) as [chat|] eqn:En; try discriminate.
    injection Hst as <-. simpl. split; [| reflexivity].
    destruct S as [[[E _] | [c [Hc Ea]]] _].
    + rewrite E in En. destruct n; discriminate.
    + apply nth_error_In in En.
      destruct (chats (ui w)) as [|c1 [|c2 l]]; [destruct Hc | | simpl in L; lia].
      destruct Hc as [<- | []]. destruct En as [<- | []]. now rewrite Ea.
Qed.

(** *** Every event keeps the chats *)

Lemma Forall2_updateChat a f l :
  (forall c, chatKept c (Chat.with_messages c (f (Chat.messages c)))) ->
  Forall2 chatKept l (updateChat a f l).
Proof.
  intros H. induction l as [|c l IH]; simpl; constructor; auto.
  destruct (jsstring_eqb (Chat.id c) a); [apply H |].
  repeat split; auto.
Qed.

(** X3.  No event removes, reorders or renames a chat, or edits a message:
    on a non-empty collection every event leaves each chat at its place with
    its id, title and creation time, and leaves its message log as it is,
    empties it, or adds one message at its end. *)
Theorem every_event_keeps_the_chats e w w' :
  chats (ui w) <> [] ->
  step e w = Some w' ->
  Forall2 chatKept (chats (ui w)) (chats (ui w')).
Proof.
  intros Hne Hst.
  destruct (step_chatsStep _ _ _ Hst)
    as [Hc Hs | c0 He Hc Hm Hs | a now m Hl Hu Hi Hc Hs
       | k d rest m Hr Hs Hb Hi Hc | a Hc Hs]; rewrite Hc.
  - clear. induction (chats (ui w)); constructor; auto. repeat split; auto.
  - contradiction.
  - apply Forall2_updateChat. intros c. repeat split; simpl; eauto.
  - apply Forall2_updateChat. intros c. repeat split; simpl; eauto.
  - apply Forall2_updateChat. intros c. repeat split; simpl; eauto.
Qed.

(** X4.  The default chat is created once.  In a reachable world where the
    component is mounted the effect on [chats] does nothing, whatever the
    clock says: no second chat is ever made; and from any world at all,
    running the effect a second time changes nothing. *)
Theorem default_chat_is_created_once w now created :
  reachable w -> mounted w = true ->
  step (ChatsChanged now created) w = Some w /\
  forall w0 now' created',
    chatsEffect now' created' (chatsEffect now created w0) =
    chatsEffect now created w0.
Proof.
  intros Hw Hm. destruct (reachable_single_chat Hw) as [_ M]. specialize (M Hm).
  split.
  - simpl. now rewrite chatsEffect_nonempty.
  - intros w0 now' created'. apply chatsEffect_nonempty.
    unfold chatsEffect. destruct (chats (ui w0)) eqn:E; simpl;
      [discriminate | rewrite E; discriminate].
Qed.


(** *** What the messages look like *)

Lemma trimStart_split s : exists p, s = p ++ trimStart s.
Proof.
  induction s as [|c s [p IH]]; simpl.
  - now exists [].
  - destruct (isWhiteSpace c).
    + exists (c :: p). simpl. now f_equal.
    + now exists [].
Qed.

Lemma trimStart_head s c :
  hd_error (trimStart s) = Some c -> isWhiteSpace c = false.
Proof.
  induction s as [|x s IH]; simpl; try discriminate.
  destruct (isWhiteSpace x) eqn:E; auto.
  simpl. intros [= <-]. exact E.
Qed.

Lemma trim_trimmedText s : trim s <> [] -> trimmedText (trim s).
Proof.
  unfold trim, trimEnd. intros Hne. split; [exact Hne |]. split.
  - destruct (trimStart_split (rev (trimStart s))) as [p Hp].
    apply (f_equal (@rev N)) in Hp. rewrite rev_involutive, rev_app_distr in Hp.
    intros c Hc. apply (trimStart_head s). rewrite Hp.
    destruct (rev (trimStart (rev (trimStart s)))); [contradiction | exact Hc].
  - rewrite rev_involutive. intros c. apply trimStart_head.
Qed.

Lemma wellFormed_updateChat (P : Message.t -> Prop) a f l :
  (forall c m, In c l -> In m (Chat.messages c) -> P m) ->
  (forall ms m, (forall m0, In m0 ms -> P m0) -> In m (f ms) -> P m) ->
  forall c' m, In c' (updateChat a f l) -> In m (Chat.messages c') -> P m.
Proof.
  intros H Hf c' m Hc' Hm. apply updateChat_In in Hc' as [c [Hc ->]].
  destruct (jsstring_eqb (Chat.id c) a); simpl in Hm; eauto.
Qed.

Lemma step_wellFormedInv e w w' :
  wellFormedInv w -> step e w = Some w' -> wellFormedInv w'.
Proof.
  intros [H1 [H2 H3]] Hst. destruct e; simpl in Hst.
  - destruct (mounted w); try discriminate. injection Hst as <-.
    unfold chatsEffect. simpl. destruct (chats (ui w)) eqn:E; simpl.
    + split; [| split; auto]. simpl. intros c m [<- | []] [].
    + rewrite <- E in H1. exact (conj H1 (conj H2 H3)).
  - injection Hst as <-. unfold chatsEffect. destruct (chats (ui w)) eqn:E; simpl.
    + split; [| split; auto]. simpl. intros c m [<- | []] [].
    + rewrite <- E in H1. exact (conj H1 (conj H2 H3)).
  - destruct (probing w); try discriminate. injection Hst as <-.
    exact (conj H1 (conj H2 H3)).
  - injection Hst as <-. exact (conj H1 (conj H2 H3)).
  - injection Hst as <-.
    destruct (handleSend_cases now stamp w) as [[-> _] | [a [Ht [_ [_ ->]]]]];
      [exact (conj H1 (conj H2 H3)) |].
    split; [| split]; simpl.
    + apply wellFormed_updateChat; auto.
      intros ms m Hms Hm. apply in_app_or in Hm as [Hm | [<- | []]]; auto.
      split; simpl; [now exists now |].
      eexists. split; [reflexivity |]. now apply trim_trimmedText.
    + intros d Hd. apply in_app_or in Hd as [Hd | [<- | []]]; auto.
      now exists now.
    + apply Forall_app. split; auto. constructor; auto.
      now apply trim_trimmedText.
  - destruct (remove_nth k (sends w)) as [[d rest]|] eqn:E; try discriminate.
    injection Hst as <-.
    pose proof (remove_nth_perm _ _ E) as P.
    assert (Hd : exists t, d_id d = toStringZ t).
    { apply H2. eapply Permutation_in; [apply Permutation_sym, P | now left]. }
    destruct Hd as [t Ht].
    assert (Hrest : forall d', In d' rest -> exists t', d_id d' = toStringZ t').
    { intros d' Hd'. apply H2.
      eapply Permutation_in; [apply Permutation_sym, P | now right]. }
    unfold handleSend_settled.
    destruct (sendToWatson typeErrorText r) as [reply | err]; simpl;
      (split; [| split; auto]); simpl;
      apply wellFormed_updateChat; auto;
      intros ms m Hms Hm; apply in_app_or in Hm as [Hm | [<- | []]]; auto;
      exists t; simpl; rewrite Ht; [now left | right].
    split; [reflexivity | eexists; reflexivity].
  - destruct (nth_error (chats (ui w)) n); try discriminate. injection Hst as <-.
    exact (conj H1 (conj H2 H3)).
  - injection Hst as <-. unfold handleClearChat.
    destruct (chatIdSet (activeChatId (ui w))) as [a|];
      [| exact (conj H1 (conj H2 H3))].
    split; [| split; auto]. simpl.
    apply wellFormed_updateChat; auto. intros ms m _ [].
  - injection Hst as <-. exact (conj H1 (conj H2 H3)).
  - injection Hst as <-. exact (conj H1 (conj H2 H3)).
Qed.

Lemma reachable_wellFormedInv w : reachable w -> wellFormedInv w.
Proof.
  apply reachable_ind_inv.
  - split; [intros c m [] | split; [intros d [] | constructor]].
  - intros e w0 w'. apply step_wellFormedInv.
Qed.

(** X5.  Nothing blank is ever sent or shown as a user message: in every
    reachable world each text posted to the chat endpoint, and the text of
    each user message of each chat, is a string that is not empty and has no
    white space at its start or at its end. *)
Theorem posted_and_user_texts_are_trimmed w :
  reachable w ->
  Forall trimmedText (posted w) /\
  forall c m, In c (chats (ui w)) -> In m (Chat.messages c) ->
    Message.sender m = user ->
    exists s, Message.text m = VStr s /\ trimmedText s.
Proof.
  intros Hw. destruct (reachable_wellFormedInv Hw) as [H1 [_ H3]].
  split; [exact H3 |].
  intros c m Hc Hm Hu. specialize (H1 c m Hc Hm).
  unfold wellFormedMessage in H1. rewrite Hu in H1. apply H1.
Qed.

(** X6.  Who wrote a message can be read off its id.  In every reachable
    world a user message has the decimal string of a clock value as id, and
    a bot message has such a string followed by "_bot" or by "_err"; so a
    message is a user message exactly when its id has no underscore; and the
    text of a message whose id ends in "_err" starts with the warning sign. *)
Theorem sender_can_be_read_off_the_id w :
  reachable w ->
  forall c m, In c (chats (ui w)) -> In m (Chat.messages c) ->
    (exists t,
       Message.sender m = user /\ Message.id m = toStringZ t \/
       Message.sender m = bot /\ Message.id m = toStringZ t ++ lit "_bot" \/
       Message.sender m = bot /\ Message.id m = toStringZ t ++ lit "_err" /\
       exists reason, Message.text m = VStr (warningSign ++ reason)) /\
    (Message.sender m = user <-> stem (Message.id m) = Message.id m).
Proof.
  intros Hw c m Hc Hm. destruct (reachable_wellFormedInv Hw) as [H1 _].
  specialize (H1 c m Hc Hm). unfold wellFormedMessage in H1.
  destruct (Message.sender m).
  - destruct H1 as [[t Ht] _]. split; [exists t; auto |].
    rewrite Ht, stem_toStringZ. tauto.
  - destruct H1 as [t [Ht | [Ht Hr]]].
    + split; [exists t; auto |]. rewrite Ht, stem_bot.
      split; [discriminate |]. intros E. exfalso.
      apply (plain_neq_suffixed t (toStringZ t) (lit "bot")). exact E.
    + split; [exists t; auto |]. rewrite Ht, stem_err.
      split; [discriminate |]. intros E. exfalso.
      apply (plain_neq_suffixed t (toStringZ t) (lit "err")). exact E.
Qed.

(** *** The error shown *)

Lemma reachable_no_error_in_flight w :
  reachable w -> loading (ui w) = true -> error (ui w) = None.
Proof.
  apply (reachable_ind_inv (fun w0 => loading (ui w0) = true -> error (ui w0) = None)).
  - discriminate.
  - intros e w0 w' IH Hst. destruct e; simpl in Hst.
    + destruct (mounted w0); try discriminate. injection Hst as <-.
      destruct (chatsEffect_frame now created (checkBackendHealth w0))
        as [_ [Hl [He _]]]. simpl. rewrite Hl, He. exact IH.
    + injection Hst as <-.
      destruct (chatsEffect_frame now created w0) as [_ [Hl [He _]]].
      rewrite Hl, He. exact IH.
    + destruct (probing w0); try discriminate. injection Hst as <-. exact IH.
    + injection Hst as <-. exact IH.
    + injection Hst as <-.
      destruct (handleSend_cases now stamp w0) as [[-> _] | [a [_ [_ [_ ->]]]]];
        [exact IH | reflexivity].
    + destruct (remove_nth k (sends w0)) as [[d rest]|]; try discriminate.
      injection Hst as <-.
      match goal with |- loading (ui (handleSend_settled _ d r stamp ?w1)) = _ -> _ =>
        destruct (handleSend_settled_fields typeErrorText d r stamp w1)
          as [m [_ [_ [_ [_ [_ [Hl _]]]]]]] end.
      rewrite Hl. discriminate.
    + destruct (nth_error (chats (ui w0)) n); try discriminate.
      injection Hst as <-. exact IH.
    + injection Hst as <-.
      destruct (handleClearChat_frame w0) as [_ [_ [Hl [He _]]]].
      rewrite Hl, He. exact IH.
    + injection Hst as <-. exact IH.
    + injection Hst as <-. exact IH.
Qed.

(** X7.  While a dispatch is in flight no error is shown: in every reachable
    world where [loading] is true, [error] is [null]; the error of an earlier
    failure is gone as soon as the next send starts. *)
Theorem no_error_while_in_flight w :
  reachable w -> loading (ui w) = true ->
  error (ui w) = None /\ sends w <> [].
Proof.
  intros Hw Hl. split; [now apply reachable_no_error_in_flight |].
  destruct (reachable_flightInv Hw) as [[H _] | [_ [d ->]]]; congruence.
Qed.

(** X8.  The error changes at two moments only, and at those it does.  A
    send that passes its guard clears [error]; a reply at which
    [sendToWatson] threw sets it to the reason of the failure; a send that
    is refused, a successful reply, typing, selecting a chat, clearing the
    chat, the effects and the health reply all leave it as it is. *)
Theorem error_changes_only_at_dispatch_start_and_failure e w w' :
  step e w = Some w' ->
  error (ui w') =
  match e with
  | Send _ _ => if sendStarts w then None else error (ui w)
  | ChatSettled _ r _ =>
      match sendToWatson typeErrorText r with
      | Throw err => Some (reasonOf err)
      | Normal _ => error (ui w)
      end
  | _ => error (ui w)
  end.
Proof.
  intros Hst. destruct e; simpl in Hst.
  - destruct (mounted w); try discriminate. injection Hst as <-.
    destruct (chatsEffect_frame now created (checkBackendHealth w)) as [_ [_ [He _]]].
    simpl. rewrite He. reflexivity.
  - injection Hst as <-.
    destruct (chatsEffect_frame now created w) as [_ [_ [He _]]]. exact He.
  - destruct (probing w); try discriminate. injection Hst as <-. reflexivity.
  - injection Hst as <-. reflexivity.
  - injection Hst as <-. destruct (sendStarts w) eqn:G.
    + destruct (handleSend_cases now stamp w) as [[_ N] | [a [_ [_ [_ ->]]]]];
        [| reflexivity].
      exfalso. unfold sendStarts in G.
      destruct (trim (message (ui w))); [discriminate |].
      destruct (loading (ui w)); [discriminate |].
      destruct (chatIdSet (activeChatId (ui w))); [| discriminate].
      destruct N as [N | [N | N]]; discriminate.
    + now rewrite (handleSend_sendStarts now stamp w G).
  - destruct (remove_nth k (sends w)) as [[d rest]|]; try discriminate.
    injection Hst as <-. unfold handleSend_settled.
    destruct (sendToWatson typeErrorText r) as [reply | err]; reflexivity.
  - destruct (nth_error (chats (ui w)) n); try discriminate.
    injection Hst as <-. reflexivity.
  - injection Hst as <-.
    destruct (handleClearChat_frame w) as [_ [_ [_ [He _]]]]. exact He.
  - injection Hst as <-. reflexivity.
  - injection Hst as <-. reflexivity.
Qed.


(** *** The composer *)

(** X9.  A send empties the composer, so sending again needs new text: after
    a send that passed its guard and its reply, whatever the reply, the
    composer is empty and a further click on Send changes nothing. *)
Theorem send_again_needs_new_text w c now stamp r stamp' now2 stamp2 :
  reachable w ->
  trim (message (ui w)) <> [] -> loading (ui w) = false ->
  activeChat (ui w) = Some c ->
  exists w',
    run [Send now stamp; ChatSettled 0 r stamp'] w = Some w' /\
    message (ui w') = [] /\ sendDisabled (ui w') = true /\
    run [Send now stamp; ChatSettled 0 r stamp'; Send now2 stamp2] w = Some w'.
Proof.
  intros Hw Ht Hl Hc.
  destruct (send_accepted now stamp Hw Ht Hl Hc) as [Hs [Ha [Hf E]]].
  simpl. rewrite E. simpl. rewrite Hs. simpl.
  unfold handleSend_settled.
  destruct (sendToWatson typeErrorText r) as [reply | err]; simpl;
    (eexists; split; [reflexivity |]; split; [reflexivity |]; split;
     [reflexivity | unfold handleSend; reflexivity]).
Qed.

(** *** The health monitor and the rest *)

Lemma step_after_probe e w w' :
  mounted w = true -> probing w = false -> step e w = Some w' ->
  backendStatus (ui w') = backendStatus (ui w) /\ probes w' = probes w /\
  probing w' = false /\ mounted w' = true.
Proof.
  intros Hm Hp Hst. destruct e; simpl in Hst.
  - rewrite Hm in Hst. discriminate.
  - injection Hst as <-.
    destruct (chatsEffect_frame now created w)
      as [_ [_ [_ [Hb [_ [_ [H1 [H2 H3]]]]]]]].
    rewrite Hb, H1, H2, H3. auto.
  - rewrite Hp in Hst. discriminate.
  - injection Hst as <-. auto.
  - injection Hst as <-.
    destruct (handleSend_cases now stamp w) as [[-> _] | [a [_ [_ [_ ->]]]]]; auto.
  - destruct (remove_nth k (sends w)) as [[d rest]|]; try discriminate.
    injection Hst as <-.
    match goal with |- backendStatus (ui (handleSend_settled _ d r stamp ?w0)) = _ /\ _ =>
      destruct (handleSend_settled_fields typeErrorText d r stamp w0)
        as [m [_ [_ [_ [_ [_ [_ [Hb [_ [_ [H1 [H2 H3]]]]]]]]]]]] end.
    rewrite Hb, H1, H2, H3. auto.
  - destruct (nth_error (chats (ui w)) n); try discriminate.
    injection Hst as <-. auto.
  - injection Hst as <-.
    destruct (handleClearChat_frame w)
      as [_ [_ [_ [_ [Hb [_ [_ [H1 [H2 H3]]]]]]]]].
    rewrite Hb, H1, H2, H3. auto.
  - injection Hst as <-. auto.
  - injection Hst as <-. auto.
Qed.

(** X10.  The outcome of the probe is final.  Once the component is mounted
    and the health request has settled, no run of events changes the status,
    issues another probe or leaves one outstanding: the badge shows the
    outcome of the one probe for as long as the component lives. *)
Theorem health_status_is_final es w w' :
  mounted w = true -> probing w = false ->
  run es w = Some w' ->
  backendStatus (ui w') = backendStatus (ui w) /\ probes w' = probes w /\
  probing w' = false.
Proof.
  revert w. induction es as [|e es IH]; simpl; intros w Hm Hp Hr.
  - injection Hr as <-. auto.
  - destruct (step e w) as [w1|] eqn:E; try discriminate.
    destruct (step_after_probe e w Hm Hp E) as [Hb [H1 [H2 H3]]].
    destruct (IH w1 H3 H2 Hr) as [Hb' [H1' H2']].
    rewrite Hb', H1'. auto.
Qed.

(** X11.  The health reply does not interfere with the chat side: while the
    probe is outstanding, its reply and any event other than the first
    commit can happen in either order, and the world they lead to is the
    same; in particular a send is never held back by the health check. *)
Theorem health_reply_commutes r e w :
  probing w = true -> notHealth e = true ->
  run [HealthSettled r; e] w = run [e; HealthSettled r] w.
Proof.
  intros Hp Hn. destruct e; try discriminate Hn; simpl; rewrite ?Hp; simpl.
  - unfold chatsEffect. simpl. destruct (chats (ui w)); simpl; rewrite ?Hp; reflexivity.
  - rewrite ?Hp. reflexivity.
  - unfold handleSend. simpl.
    destruct (trim (message (ui w))); simpl; rewrite ?Hp; try reflexivity.
    destruct (loading (ui w)); simpl; rewrite ?Hp; try reflexivity.
    destruct (chatIdSet (activeChatId (ui w))); simpl; rewrite ?Hp; reflexivity.
  - destruct (remove_nth k (sends w)) as [[d rest]|]; simpl; [| reflexivity].
    unfold handleSend_settled.
    destruct (sendToWatson typeErrorText r0); simpl; rewrite ?Hp; reflexivity.
  - destruct (nth_error (chats (ui w)) n); simpl; rewrite ?Hp; reflexivity.
  - unfold handleClearChat. simpl.
    destruct (chatIdSet (activeChatId (ui w))); simpl; rewrite ?Hp; reflexivity.
  - rewrite ?Hp. reflexivity.
  - rewrite ?Hp. reflexivity.
Qed.

Lemma step_probe_flags e w w' :
  step e w = Some w' ->
  (exists r, e = HealthSettled r /\ backendStatus (ui w') = healthStatus r) \/
  (exists now created, e = Mount now created /\ probing w' = true) \/
  (probing w' = probing w /\ mounted w' = mounted w /\
   backendStatus (ui w') = backendStatus (ui w)).
Proof.
  intros Hst. destruct e; simpl in Hst.
  - destruct (mounted w); try discriminate. injection Hst as <-.
    right. left. exists now, created. split; [reflexivity |]. simpl.
    destruct (chatsEffect_frame now created (checkBackendHealth w))
      as [_ [_ [_ [_ [_ [_ [_ [H2 _]]]]]]]]. rewrite H2. reflexivity.
  - injection Hst as <-. right. right.
    destruct (chatsEffect_frame now created w)
      as [_ [_ [_ [Hb [_ [_ [_ [H2 H3]]]]]]]]. auto.
  - destruct (probing w); try discriminate. injection Hst as <-.
    left. exists r. auto.
  - injection Hst as <-. right. right. auto.
  - injection Hst as <-. right. right.
    destruct (handleSend_cases now stamp w) as [[-> _] | [a [_ [_ [_ ->]]]]]; auto.
  - destruct (remove_nth k (sends w)) as [[d rest]|]; try discriminate.
    injection Hst as <-. right. right.
    match goal with |- probing (handleSend_settled _ d r stamp ?w0) = _ /\ _ =>
      destruct (handleSend_settled_fields typeErrorText d r stamp w0)
        as [m [_ [_ [_ [_ [_ [_ [Hb [_ [_ [_ [H2 H3]]]]]]]]]]]] end.
    auto.
  - destruct (nth_error (chats (ui w)) n); try discriminate.
    injection Hst as <-. right. right. auto.
  - injection Hst as <-. right. right.
    destruct (handleClearChat_frame w)
      as [_ [_ [_ [_ [Hb [_ [_ [_ [H2 H3]]]]]]]]]. auto.
  - injection Hst as <-. right. right. auto.
  - injection Hst as <-. right. right. auto.
Qed.

Lemma reachable_settled_status w :
  reachable w -> mounted w = true -> probing w = false ->
  backendStatus (ui w) <> checking.
Proof.
  apply (reachable_ind_inv
           (fun w0 => mounted w0 = true -> probing w0 = false ->
                      backendStatus (ui w0) <> checking)).
  - discriminate.
  - intros e w0 w' IH Hst Hm Hp.
    destruct (step_probe_flags e w0 Hst)
      as [[r [_ Hb]] | [[now [created [_ H]]] | [H2 [H3 Hb]]]].
    + rewrite Hb. destruct (healthStatus_not_checking r) as [-> | ->]; discriminate.
    + congruence.
    + rewrite Hb. apply IH; congruence.
Qed.

(** C9, as the code has it.  The health monitor.  One probe is issued, by
    the first commit, and never another: before the first commit none has
    been issued and the status is [checking]; the first commit issues it and
    leaves it outstanding; from then on exactly one has been issued, and
    either it is outstanding and the status is [checking], or it has settled
    and the status is not [checking].  While the probe is outstanding its
    outcome can be delivered, whatever it is, and then the status becomes
    [ready] if and only if the response is a 2xx one whose body is JSON and
    whose [api_ready] is truthy (the condition [data?.api_ready] holds: for a
    boolean [api_ready] that is [true], but a non-zero number, a non-empty
    string, an array or an object count as well), and [error] in every other
    case: a response that is not a 2xx one, a 2xx response without that
    indication or whose body is not JSON, a rejected request.  After that no
    probe is outstanding and no further outcome is accepted. *)
Theorem health_monitor_status w :
  reachable w ->
  (probes w <= 1)%nat /\
  (mounted w = false ->
   probes w = 0%nat /\ backendStatus (ui w) = checking /\
   forall now created, exists w0,
     step (Mount now created) w = Some w0 /\
     probes w0 = 1%nat /\ probing w0 = true /\
     backendStatus (ui w0) = checking) /\
  (mounted w = true ->
   probes w = 1%nat /\
   (probing w = true /\ backendStatus (ui w) = checking \/
    probing w = false /\ backendStatus (ui w) <> checking)) /\
  (probing w = true ->
   forall r, exists w',
     step (HealthSettled r) w = Some w' /\
     probing w' = false /\ probes w' = probes w /\
     (backendStatus (ui w') = ready <->
      exists data, r = FetchResolved true (Normal data) /\
                   truthy (get_optional data (lit "api_ready")) = true) /\
     (backendStatus (ui w') <> ready -> backendStatus (ui w') = error_status) /\
     (forall fields b,
        r = FetchResolved true (Normal (VObj fields)) ->
        lookup (lit "api_ready") fields = VBool b ->
        (backendStatus (ui w') = ready <-> b = true)) /\
     (forall json, r = FetchResolved false json ->
        backendStatus (ui w') = error_status) /\
     (forall e, r = FetchRejected e -> backendStatus (ui w') = error_status)) /\
  (probing w = false -> forall r, step (HealthSettled r) w = None).
Proof.
  intros Hw. destruct (reachable_healthInv Hw) as [H1 [H2 H3]].
  pose proof (reachable_settled_status Hw) as S.
  split; [| split; [| split; [| split]]].
  - destruct (mounted w); [rewrite H2 | destruct H1 as [-> _]]; auto.
  - intros Hm. destruct (H1 Hm) as [P0 P1].
    split; [exact P0 |]. split; [apply H3; now left |].
    intros now created. simpl. rewrite Hm. eexists. split; [reflexivity |].
    destruct (chatsEffect_frame now created (checkBackendHealth w))
      as [_ [_ [_ [Hb [_ [_ [Hp [Hg _]]]]]]]].
    simpl. rewrite Hp, Hg, Hb. simpl. rewrite P0.
    repeat split. apply H3. now left.
  - intros Hm. split; [now apply H2 |].
    destruct (probing w) eqn:Ep.
    + left. split; [reflexivity |]. apply H3. now right.
    + right. split; [reflexivity |]. now apply S.
  - intros Hp r. simpl. rewrite Hp. eexists. split; [reflexivity |].
    simpl. split; [reflexivity |]. split; [reflexivity |].
    split; [apply healthStatus_ready |].
    split; [destruct (healthStatus_not_checking r); congruence |].
    split; [| split].
    + intros fields b -> Hb. unfold healthStatus. simpl. rewrite Hb. simpl.
      destruct b; split; congruence.
    + intros json ->. reflexivity.
    + intros e ->. reflexivity.
  - intros Hp r. simpl. now rewrite Hp.
Qed.

(** X12.  The badge reads "Checking" exactly while the outcome of the probe
    is not there: in every reachable world the label of the status badge is
    "Checking" if and only if the component is not mounted yet or the health
    request is outstanding; afterwards it reads "Online" or "Error". *)
Theorem badge_reads_checking_until_probe_settles w :
  reachable w ->
  (statusLabel (backendStatus (ui w)) = lit "Checking" <->
   mounted w = false \/ probing w = true) /\
  (mounted w = true -> probing w = false ->
   statusLabel (backendStatus (ui w)) = lit "Online" \/
   statusLabel (backendStatus (ui w)) = lit "Error").
Proof.
  intros Hw. destruct (reachable_healthInv Hw) as [_ [_ H3]].
  pose proof (reachable_settled_status Hw) as S.
  split.
  - split.
    + intros L. destruct (mounted w) eqn:Em; [| now left].
      destruct (probing w) eqn:Ep; [now right |].
      specialize (S eq_refl eq_refl).
      destruct (backendStatus (ui w)); [contradiction | | ]; discriminate L.
    + intros H. rewrite (H3 H). reflexivity.
  - intros Hm Hp. specialize (S Hm Hp).
    destruct (backendStatus (ui w)); [contradiction | now left | now right].
Qed.


(** *** Clearing the chat *)

Lemma handleClearChat_idempotent w :
  handleClearChat (handleClearChat w) = handleClearChat w.
Proof.
  unfold handleClearChat.
  destruct (chatIdSet (activeChatId (ui w))) as [a|] eqn:E; simpl; rewrite E.
  - unfold setChats. simpl. now rewrite updateChat_updateChat.
  - reflexivity.
Qed.

(** X13.  After a click on the clear button the panel is empty, and a second
    click changes nothing more: in a reachable world the messages shown
    after [handleClearChat] are none, the chat itself is still the active
    one, and clearing twice is clearing once. *)
Theorem clear_empties_the_panel w :
  reachable w ->
  shownMessages (ui (handleClearChat w)) = [] /\
  clearButtonShown (ui (handleClearChat w)) = clearButtonShown (ui w) /\
  handleClearChat (handleClearChat w) = handleClearChat w.
Proof.
  intros Hw. split; [| split; [| apply handleClearChat_idempotent]].
  - pose proof (storeInv_activeChat (reachable_storeInv Hw)) as S.
    unfold shownMessages, handleClearChat.
    destruct (activeChat (ui w)) as [c|] eqn:Hc.
    + destruct S as [S _]. rewrite S. destruct (chatIdSet_Some _ S) as [Ha _].
      assert (F : find (fun c0 => jsstring_eqb (Chat.id c0) (Chat.id c)) (chats (ui w)) = Some c).
      { unfold activeChat in Hc. now rewrite Ha in Hc. }
      match goal with |- context [activeChat ?s] =>
        rewrite (@activeChat_updated s (Chat.id c) (fun _ => [])
                   (chats (ui w)) c Ha eq_refl F) end.
      reflexivity.
    + destruct S as [S _]. rewrite S. now rewrite Hc.
  - pose proof (storeInv_activeChat (reachable_storeInv Hw)) as S.
    unfold clearButtonShown, handleClearChat.
    destruct (activeChat (ui w)) as [c|] eqn:Hc.
    + destruct S as [S _]. rewrite S. destruct (chatIdSet_Some _ S) as [Ha _].
      assert (F : find (fun c0 => jsstring_eqb (Chat.id c0) (Chat.id c)) (chats (ui w)) = Some c).
      { unfold activeChat in Hc. now rewrite Ha in Hc. }
      match goal with |- context [activeChat ?s] =>
        rewrite (@activeChat_updated s (Chat.id c) (fun _ => [])
                   (chats (ui w)) c Ha eq_refl F) end.
      reflexivity.
    + destruct S as [S _]. rewrite S. now rewrite Hc.
Qed.

(** X14.  Clearing does not cancel a request.  When the chat is cleared
    while a dispatch is in flight, the reply still arrives: after a send
    that passed its guard, a click on clear and then the outcome of the
    request, the message log of the active chat holds one message, the bot
    message of that dispatch (the reply, or the error message), and
    [loading] is false. *)
Theorem clear_in_flight_keeps_the_reply w c now stamp r stamp' :
  reachable w ->
  trim (message (ui w)) <> [] -> loading (ui w) = false ->
  activeChat (ui w) = Some c ->
  exists w' m,
    run [Send now stamp; ClearChat; ChatSettled 0 r stamp'] w = Some w' /\
    activeChat (ui w') = Some (Chat.with_messages c [m]) /\
    Message.sender m = bot /\ Message.timestamp m = stamp' /\
    (Message.id m = toStringZ now ++ lit "_bot" \/
     Message.id m = toStringZ now ++ lit "_err") /\
    loading (ui w') = false.
Proof.
  intros Hw Ht Hl Hc.
  destruct (send_accepted now stamp Hw Ht Hl Hc) as [Hs [Ha [Hf E]]].
  pose proof (storeInv_activeChat (reachable_storeInv Hw)) as S.
  rewrite Hc in S. destruct S as [S _].
  simpl. rewrite E. unfold handleClearChat. simpl. rewrite S. simpl.
  rewrite Hs. simpl.
  match goal with |- exists w' m, Some (handleSend_settled _ ?d r stamp' ?w0) = _ /\ _ =>
    destruct (handleSend_settled_fields typeErrorText d r stamp' w0)
      as [m [Hb [Hts [Hi [Hch [Hac [Hld _]]]]]]] end.
  eexists. exists m. split; [reflexivity |].
  split; [| repeat split; auto].
  apply (@activeChat_updated _ (Chat.id c) (fun _ => [m]) (chats (ui w)) c); auto.
  - rewrite Hac. exact Ha.
  - rewrite Hch. simpl. rewrite !updateChat_updateChat. reflexivity.
Qed.

(** *** The keyboard *)

Lemma disabled_send_is_noop w now stamp :
  reachable w -> sendDisabled (ui w) = true -> handleSend now stamp w = w.
Proof.
  intros Hw D.
  pose proof (storeInv_activeChat (reachable_storeInv Hw)) as S.
  destruct (handleSend_cases now stamp w) as [[E _] | [a [Ht [Hl [Ha _]]]]]; auto.
  exfalso. unfold sendDisabled in D. rewrite Hl in D.
  destruct (activeChat (ui w)); [| destruct S; congruence].
  destruct (trim (message (ui w))); [contradiction | discriminate].
Qed.


(** X15.  Only Enter without Shift sends.  [handleKeyPress] suppresses the
    default action of the key exactly for Enter without Shift, also when the
    send is then refused by the guard; for every other key, and for Shift
    and Enter, it leaves the world as it is; and in a reachable world Enter
    changes the world only if the send button is enabled. *)
Theorem only_enter_without_shift_sends w e now stamp :
  reachable w ->
  (fst (handleKeyPress e now stamp w) = true <->
   key e = lit "Enter" /\ shiftKey e = false) /\
  (key e = lit "Enter" -> shiftKey e = false ->
   snd (handleKeyPress e now stamp w) = handleSend now stamp w) /\
  (key e <> lit "Enter" \/ shiftKey e = true ->
   handleKeyPress e now stamp w = (false, w)) /\
  (snd (handleKeyPress e now stamp w) <> w -> sendDisabled (ui w) = false).
Proof.
  intros Hw. unfold handleKeyPress.
  pose proof (jsstring_eqb_eq (key e) (lit "Enter")) as K1.
  pose proof (jsstring_eqb_neq (key e) (lit "Enter")) as K2.
  destruct (jsstring_eqb (key e) (lit "Enter"));
    destruct (shiftKey e); simpl;
    (split; [| split; [| split]]).
  all: try (split; intros; intuition congruence).
  all: try (intros; intuition congruence).
  intros H. pose proof (disabled_send_is_noop now stamp Hw) as D.
  destruct (sendDisabled (ui w)); auto. exfalso. apply H, D. reflexivity.
Qed.

(** *** The outcomes of [sendToWatson] *)

(** X16.  [sendToWatson] returns only for a 2xx response whose body is JSON
    and not [null], and then it returns the [response] property of the body,
    [undefined] when the body has none; for a response that is not a 2xx one
    it always throws; an error of the request, or of reading the body, is
    thrown on as it is. *)
Theorem sendToWatson_outcomes r :
  (forall reply,
     sendToWatson typeErrorText r = Normal reply <->
     exists body, r = FetchResolved true (Normal body) /\
                  body <> VNull /\ body <> VUndefined /\
                  reply = get_optional body (lit "response")) /\
  (forall json, r = FetchResolved false json ->
     exists err, sendToWatson typeErrorText r = Throw err) /\
  (forall e, r = FetchRejected e -> sendToWatson typeErrorText r = Throw e) /\
  (forall ok e, r = FetchResolved ok (Throw e) ->
     sendToWatson typeErrorText r = Throw e) /\
  (r = FetchResolved true (Normal VNull) ->
   sendToWatson typeErrorText r =
   Throw (ThrownError (typeErrorText VNull (lit "response")))).
Proof.
  split; [| split; [| split; [| split]]].
  - intros reply. unfold sendToWatson. split.
    + destruct r as [e | ok [body | e]]; try discriminate;
        destruct ok; simpl; try discriminate.
      * intros H. exists body. split; [reflexivity |].
        destruct body; simpl in H; try discriminate;
          injection H as <-; repeat split; discriminate.
      * destruct (get typeErrorText body (lit "detail")); try discriminate.
        destruct (ToString typeErrorText _); discriminate.
    + intros [body [-> [N1 [N2 ->]]]]. simpl.
      destruct body; simpl; congruence.
  - intros json ->. unfold sendToWatson. simpl.
    destruct json as [body | e]; [| eauto].
    destruct (get typeErrorText body (lit "detail")); eauto.
    destruct (ToString typeErrorText _); eauto.
  - intros e ->. reflexivity.
  - intros ok e ->. unfold sendToWatson. destruct ok; reflexivity.
  - intros ->. reflexivity.
Qed.

(** X17.  A 2xx reply without a [response] field is not an error.  After a
    send that passed its guard, a 2xx response whose body is a JSON value
    other than [null] always ends the dispatch as a success in the state of
    the component: the message log of the active chat gains the user
    message and a bot message that carries the [response] property of the
    body, which is [undefined] when the body has none, and [error] stays
    [null]. *)
Theorem reply_without_response_is_shown_as_success
    w c now stamp body stamp' :
  reachable w ->
  trim (message (ui w)) <> [] -> loading (ui w) = false ->
  activeChat (ui w) = Some c ->
  body <> VNull -> body <> VUndefined ->
  exists w',
    run [Send now stamp; ChatSettled 0 (FetchResolved true (Normal body)) stamp'] w
      = Some w' /\
    activeChat (ui w') =
      Some (Chat.with_messages c
              (Chat.messages c ++
               [{| Message.id := toStringZ now;
                   Message.text := VStr (trim (message (ui w)));
                   Message.sender := user; Message.timestamp := stamp |};
                {| Message.id := toStringZ now ++ lit "_bot";
                   Message.text := get_optional body (lit "response");
                   Message.sender := bot; Message.timestamp := stamp' |}])) /\
    error (ui w') = None /\ loading (ui w') = false.
Proof.
  intros Hw Ht Hl Hc N1 N2.
  destruct (send_accepted now stamp Hw Ht Hl Hc) as [Hs [Ha [Hf E]]].
  assert (R : sendToWatson typeErrorText (FetchResolved true (Normal body)) =
              Normal (get_optional body (lit "response"))).
  { unfold sendToWatson. simpl. destruct body; simpl; congruence. }
  simpl. rewrite E. simpl. rewrite Hs. simpl.
  unfold handleSend_settled. rewrite R. simpl.
  eexists. split; [reflexivity |]. split; [| split; reflexivity].
  apply (@activeChat_updated _ (Chat.id c)
           (fun ms => ms ++
              [{| Message.id := toStringZ now;
                  Message.text := VStr (trim (message (ui w)));
                  Message.sender := user; Message.timestamp := stamp |};
               {| Message.id := toStringZ now ++ lit "_bot";
                  Message.text := get_optional body (lit "response");
                  Message.sender := bot; Message.timestamp := stamp' |}])
           (chats (ui w)) c); auto.
  simpl. rewrite updateChat_updateChat. apply updateChat_ext.
  intros ms. now rewrite <- app_assoc.
Qed.


(** *** Requests *)


End Further.

(** ** The claims on concrete runs *)

Lemma run_from_initial_reachable es w :
  run v8TypeErrorText es initial = Some w -> reachable v8TypeErrorText w.
Proof. apply reachable_run. constructor. Qed.

(** The successful send of the question. *)
Lemma successful_send_example :
  exists w',
    run v8TypeErrorText
        [Send 2000 2001; ChatSettled 0 (okReply "Try Kyoto.") 2500] askedWorld
      = Some w' /\
    map (fun c => map (fun m => (Message.id m, Message.sender m, Message.text m))
                      (Chat.messages c)) (chats (ui w')) =
      [[ (lit "2000", user, VStr (lit "Where should I go in March?"));
         (lit "2000_bot", bot, VStr (lit "Try Kyoto.")) ]] /\
    loading (ui w') = false.
Proof.
  destruct (@successful_send_appends_user_then_bot v8TypeErrorText
              askedWorld askedChat 2000 2001 (okReply "Try Kyoto.") 2500
              (VStr (lit "Try Kyoto.")))
    as [w' [H1 [H2 [_ [H4 _]]]]].
  - apply (@run_from_initial_reachable askedEvents). vm_compute. reflexivity.
  - vm_compute. discriminate.
  - reflexivity.
  - reflexivity.
  - reflexivity.
  - exists w'. split; [exact H1 |]. split; [rewrite H2; reflexivity | exact H4].
Defined.

(** The failed send of the question: HTTP 500 with detail "rate limited". *)
Lemma failed_send_example :
  exists w',
    run v8TypeErrorText
        [Send 2000 2001; ChatSettled 0 (errorReply "rate limited") 2500] askedWorld
      = Some w' /\
    map (fun c => map (fun m => (Message.id m, Message.sender m, Message.text m))
                      (Chat.messages c)) (chats (ui w')) =
      [[ (lit "2000", user, VStr (lit "Where should I go in March?"));
         (lit "2000_err", bot, VStr (warningSign ++ lit "rate limited")) ]] /\
    error (ui w') = Some (lit "rate limited") /\
    loading (ui w') = false.
Proof.
  destruct (@failed_send_appends_user_then_error v8TypeErrorText
              askedWorld askedChat 2000 2001 (errorReply "rate limited") 2500
              (ThrownError (lit "rate limited")))
    as [[w' [H1 [H2 [_ [H4 [H5 _]]]]]] _].
  - apply (@run_from_initial_reachable askedEvents). vm_compute. reflexivity.
  - vm_compute. discriminate.
  - reflexivity.
  - reflexivity.
  - reflexivity.
  - exists w'. split; [exact H1 |].
    split; [rewrite H2; reflexivity | split; [exact H5 | exact H4]].
Defined.

(** C2, at the failing input: a send that is answered with a 500 response
    whose body is plain text.  The body has no [detail], so the reason
    should be "Request failed"; [json()] rejects before the default is
    reached, and the reason stored in [error] is the parser's message. *)
Lemma failed_send_reason_of_plain_text_body :
  exists w',
    run v8TypeErrorText
        [Send 2000 2001; ChatSettled 0 plainTextError 2500] askedWorld
      = Some w' /\
    error (ui w') = Some (lit "Unexpected token I in JSON at position 0") /\
    statedReason
      (Throw (ThrownError (lit "Unexpected token I in JSON at position 0")))
      = lit "Request failed" /\
    error (ui w') <>
      Some (statedReason
              (Throw (ThrownError (lit "Unexpected token I in JSON at position 0")))).
Proof.
  eexists. split; [reflexivity |]. split; [reflexivity |]. split; [reflexivity |].
  vm_compute. discriminate.
Qed.

(** The reply lands in the first chat although the second is on screen. *)
Lemma reply_after_switch_example :
  activeChatId (ui switchedWorld) = Some (lit "2") /\
  exists w3,
    step v8TypeErrorText (ChatSettled 0 (okReply "Hello.") 9) switchedWorld
      = Some w3 /\
    map (fun c => (Chat.id c, List.length (Chat.messages c))) (chats (ui w3)) =
      [(lit "1", 2%nat); (lit "2", 0%nat)] /\
    activeChatId (ui w3) = Some (lit "2").
Proof.
  split; [reflexivity |].
  destruct (@reply_goes_to_chat_of_dispatch v8TypeErrorText
              twoChats (lit "1") 5 6 switchEvents switchedWorld
              (okReply "Hello.") 9)
    as [w3 [m [H1 [_ [_ [H4 H5]]]]]].
  - vm_compute. discriminate.
  - reflexivity.
  - reflexivity.
  - reflexivity.
  - reflexivity.
  - reflexivity.
  - exists w3. split; [exact H1 |].
    split; [rewrite H4; reflexivity | rewrite H5; reflexivity].
Defined.

(** Send with blanks only in the composer. *)
Lemma blank_send_example :
  step v8TypeErrorText (Send 2000 2001) blankWorld
    = Some blankWorld.
Proof.
  apply (@send_is_noop_without_preconditions v8TypeErrorText
           blankWorld 2000 2001).
  - apply (@run_from_initial_reachable blankEvents). vm_compute. reflexivity.
  - left. reflexivity.
Defined.

(** Send while the reply of the first question is outstanding. *)
Lemma second_send_in_flight_example :
  loading (ui sendingWorld) = true /\
  step v8TypeErrorText (Send 3000 3001) sendingWorld
    = Some sendingWorld.
Proof.
  split; [reflexivity |].
  destruct (@one_dispatch_in_flight v8TypeErrorText sendingWorld)
    as [_ [_ [H _]]].
  - apply (@run_from_initial_reachable sendingEvents). vm_compute. reflexivity.
  - apply H. reflexivity.
Defined.

(** The first commit creates the default chat. *)
Lemma default_chat_example :
  chats (ui (chatsEffect 1000 1001 initial)) = [askedChat] /\
  activeChatId (ui (chatsEffect 1000 1001 initial)) = Some (lit "1000").
Proof.
  destruct (@default_chat_created_when_empty v8TypeErrorText
              initial 1000 1001 eq_refl)
    as [H1 [H2 _]].
  split; [exact H1 | exact H2].
Defined.

(** C6 as stated fails: the title of the default chat is "Chat", not the
    empty string. *)
Lemma default_chat_title_is_not_empty :
  exists w' c,
    step v8TypeErrorText (Mount 1000 1001) initial = Some w' /\
    chats (ui w') = [c] /\
    Chat.title c = lit "Chat" /\ Chat.title c <> [].
Proof.
  eexists. eexists. split; [reflexivity |]. split; [reflexivity |].
  split; [reflexivity | discriminate].
Qed.

Lemma active_chat_example :
  activeValid (ui askedWorld).
Proof.
  apply (@active_chat_id_references_a_chat v8TypeErrorText askedWorld).
  apply (@run_from_initial_reachable askedEvents). vm_compute. reflexivity.
Defined.

(** Clearing the answered chat. *)
Lemma clear_chat_example :
  exists c',
    nth_error (chats (ui (handleClearChat answeredWorld))) 0 = Some c' /\
    Chat.id c' = lit "1000" /\ Chat.title c' = lit "Chat" /\
    Chat.createdAt c' = 1001 /\ Chat.messages c' = [].
Proof.
  destruct (@clear_chat_empties_only_its_messages
              answeredWorld (lit "1000") eq_refl)
    as [_ [H _]].
  destruct (H 0%nat _ eq_refl) as [c' [H1 [H2 [H3 [H4 [H5 _]]]]]].
  exists c'. split; [exact H1 |]. split; [exact H2 |]. split; [exact H3 |].
  split; [exact H4 | exact (H5 eq_refl)].
Defined.

(** The probe from the first commit to a reply that says ready. *)
Lemma health_example :
  (exists w0, step v8TypeErrorText (Mount 1000 1001) initial = Some w0 /\
              probes w0 = 1%nat /\ probing w0 = true) /\
  backendStatus (ui askedWorld) = checking /\
  exists w',
    step v8TypeErrorText (HealthSettled readyReply) askedWorld = Some w' /\
    backendStatus (ui w') = ready /\ probing w' = false.
Proof.
  destruct (@health_monitor_status v8TypeErrorText initial
              (reachable_initial v8TypeErrorText)) as [_ [H0 _]].
  destruct (H0 eq_refl) as [_ [_ HM]].
  destruct (HM 1000 1001) as [w0 [M1 [M2 [M3 _]]]].
  destruct (@health_monitor_status v8TypeErrorText askedWorld)
    as [_ [_ [H3 [H4 _]]]].
  - apply (@run_from_initial_reachable askedEvents). vm_compute. reflexivity.
  - split; [exists w0; auto |].
    destruct (H3 eq_refl) as [_ [[_ Hc] | [Hp _]]]; [| discriminate Hp].
    split; [exact Hc |].
    destruct (H4 eq_refl readyReply) as [w' [Hs [Hp [_ [_ [_ [Hb _]]]]]]].
    exists w'. split; [exact Hs |]. split; [| exact Hp].
    apply (Hb [(lit "api_ready", VBool true)] true); reflexivity.
Defined.

(** C9 as stated fails: a 2xx reply whose [api_ready] is the string "false"
    is not one whose [api_ready] is true, yet the status becomes ready. *)
Lemma health_ready_without_api_ready_true :
  exists w',
    step v8TypeErrorText
         (HealthSettled
            (FetchResolved true
               (Normal (VObj [(lit "api_ready", VStr (lit "false"))]))))
         askedWorld = Some w' /\
    backendStatus (ui w') = ready /\
    lookup (lit "api_ready") [(lit "api_ready", VStr (lit "false"))]
      <> VBool true.
Proof.
  eexists. split; [reflexivity |]. split; [reflexivity |].
  vm_compute. discriminate.
Qed.

(** Two questions sent at different clock values. *)
Lemma distinct_clock_values_example :
  NoDup (clocksRead v8TypeErrorText laterEvents initial) /\
  Forall (fun c => NoDup (map Message.id (Chat.messages c)))
         (chats (ui laterWorld)).
Proof.
  assert (N : NoDup (clocksRead v8TypeErrorText laterEvents initial))
    by (vm_compute; repeat constructor; simpl; intuition discriminate).
  split; [exact N |].
  apply Forall_forall.
  apply (@message_ids_unique_when_clock_values_differ v8TypeErrorText laterEvents);
    [vm_compute; reflexivity | exact N].
Defined.

(** C10 as stated fails: two sends that read the same clock value give two
    user messages with the same id. *)
Lemma same_millisecond_ids_collide :
  reachable v8TypeErrorText sameMillisecondWorld /\
  exists c, In c (chats (ui sameMillisecondWorld)) /\
            map Message.id (Chat.messages c) =
              [lit "2000"; lit "2000_bot"; lit "2000"] /\
            ~ NoDup (map Message.id (Chat.messages c)).
Proof.
  split.
  - apply (@run_from_initial_reachable sameMillisecondEvents). vm_compute. reflexivity.
  - eexists. split; [left; reflexivity |]. split; [reflexivity |].
    intros N. vm_compute in N. apply NoDup_cons_iff in N as [N _].
    apply N. right. left. reflexivity.
Qed.

(** ** The further properties on concrete runs *)

Lemma askedWorld_reachable : reachable v8TypeErrorText askedWorld.
Proof. apply (@run_from_initial_reachable askedEvents). vm_compute. reflexivity. Qed.

Lemma sendingWorld_reachable : reachable v8TypeErrorText sendingWorld.
Proof. apply (@run_from_initial_reachable sendingEvents). vm_compute. reflexivity. Qed.

Lemma answeredWorld_reachable : reachable v8TypeErrorText answeredWorld.
Proof. apply (@run_from_initial_reachable answeredEvents). vm_compute. reflexivity. Qed.

Lemma failedWorld_reachable : reachable v8TypeErrorText failedWorld.
Proof. apply (@run_from_initial_reachable failedEvents). vm_compute. reflexivity. Qed.

Lemma checkedWorld_reachable : reachable v8TypeErrorText checkedWorld.
Proof. apply (@run_from_initial_reachable checkedEvents). vm_compute. reflexivity. Qed.

Lemma send_button_example :
  sendDisabled (ui askedWorld) = false /\
  posted (handleSend 2000 2001 askedWorld) = [lit "Where should I go in March?"] /\
  sendDisabled (ui sendingWorld) = true /\
  handleSend 3000 3001 sendingWorld = sendingWorld.
Proof.
  destruct (@send_button_tells_whether_send_starts v8TypeErrorText
              askedWorld 2000 2001 askedWorld_reachable) as [_ H].
  destruct (H eq_refl) as [H1 _].
  destruct (@send_button_tells_whether_send_starts v8TypeErrorText
              sendingWorld 3000 3001 sendingWorld_reachable) as [[H2 _] _].
  split; [reflexivity |]. split; [rewrite H1; reflexivity |].
  split; [reflexivity | apply H2; reflexivity].
Defined.

Lemma single_chat_example :
  (List.length (chats (ui answeredWorld)) <= 1)%nat /\
  exists c, chats (ui answeredWorld) = [c] /\ activeChat (ui answeredWorld) = Some c.
Proof.
  destruct (@the_single_chat_is_active v8TypeErrorText answeredWorld
              answeredWorld_reachable) as [H1 [H2 _]].
  split; [exact H1 |].
  destruct (H2 eq_refl) as [c [Hc [Ha _]]]. exists c. auto.
Defined.

Lemma chats_kept_example :
  Forall2 chatKept (chats (ui askedWorld)) (chats (ui sendingWorld)).
Proof.
  apply (@every_event_keeps_the_chats v8TypeErrorText (Send 2000 2001)
           askedWorld sendingWorld).
  - vm_compute. discriminate.
  - vm_compute. reflexivity.
Defined.

Lemma default_chat_once_example :
  step v8TypeErrorText (ChatsChanged 5000 5001) answeredWorld = Some answeredWorld.
Proof.
  apply (@default_chat_is_created_once v8TypeErrorText answeredWorld 5000 5001
           answeredWorld_reachable eq_refl).
Defined.

Lemma trimmed_texts_example :
  Forall trimmedText (posted answeredWorld).
Proof.
  apply (@posted_and_user_texts_are_trimmed v8TypeErrorText answeredWorld
           answeredWorld_reachable).
Defined.

Lemma sender_of_id_example :
  Forall (fun c =>
            Forall (fun m => Message.sender m = user <->
                             stem (Message.id m) = Message.id m)
                   (Chat.messages c))
         (chats (ui failedWorld)).
Proof.
  apply Forall_forall. intros c Hc. apply Forall_forall. intros m Hm.
  apply (@sender_can_be_read_off_the_id v8TypeErrorText failedWorld
           failedWorld_reachable c m Hc Hm).
Defined.

Lemma no_error_in_flight_example :
  error (ui sendingWorld) = None /\ sends sendingWorld <> [].
Proof.
  apply (@no_error_while_in_flight v8TypeErrorText sendingWorld
           sendingWorld_reachable eq_refl).
Defined.

Lemma error_set_by_failure_example :
  error (ui failedWorld) = Some (lit "rate limited") /\
  error (ui retypedWorld) = Some (lit "rate limited") /\
  error (ui (handleSend 3000 3001 retypedWorld)) = None.
Proof.
  pose proof (@error_changes_only_at_dispatch_start_and_failure v8TypeErrorText
                (ChatSettled 0 (errorReply "rate limited") 2500)
                sendingWorld failedWorld) as H1.
  pose proof (@error_changes_only_at_dispatch_start_and_failure v8TypeErrorText
                (Change (lit "And in April?")) failedWorld retypedWorld) as H2.
  pose proof (@error_changes_only_at_dispatch_start_and_failure v8TypeErrorText
                (Send 3000 3001) retypedWorld
                (handleSend 3000 3001 retypedWorld) eq_refl) as H3.
  assert (E1 : error (ui failedWorld) = Some (lit "rate limited")).
  { rewrite H1; [reflexivity | vm_compute; reflexivity]. }
  split; [exact E1 |].
  split; [rewrite H2; [exact E1 | vm_compute; reflexivity] |].
  rewrite H3. reflexivity.
Defined.

Lemma send_again_example :
  exists w',
    run v8TypeErrorText
        [Send 2000 2001; ChatSettled 0 (okReply "Try Kyoto.") 2500; Send 2600 2601]
        askedWorld = Some w' /\
    message (ui w') = [] /\ List.length (posted w') = 1%nat.
Proof.
  destruct (@send_again_needs_new_text v8TypeErrorText askedWorld askedChat
              2000 2001 (okReply "Try Kyoto.") 2500 2600 2601
              askedWorld_reachable)
    as [w' [H1 [H2 [_ H4]]]].
  - vm_compute. discriminate.
  - reflexivity.
  - reflexivity.
  - exists w'. split; [exact H4 |]. split; [exact H2 |].
    vm_compute in H1. injection H1 as <-. reflexivity.
Defined.

Lemma status_final_example :
  backendStatus (ui checkedWorld) = ready /\
  forall w', run v8TypeErrorText
                 [Send 2000 2001; ChatSettled 0 plainTextError 2500; ClearChat]
                 checkedWorld = Some w' ->
             backendStatus (ui w') = ready.
Proof.
  split; [reflexivity |]. intros w' Hr.
  destruct (@health_status_is_final v8TypeErrorText _ checkedWorld w'
              eq_refl eq_refl Hr) as [H _].
  rewrite H. reflexivity.
Defined.

Lemma health_reply_commutes_example :
  run v8TypeErrorText [HealthSettled readyReply; Send 2000 2001] askedWorld =
  run v8TypeErrorText [Send 2000 2001; HealthSettled readyReply] askedWorld.
Proof.
  apply (@health_reply_commutes v8TypeErrorText readyReply (Send 2000 2001)
           askedWorld eq_refl eq_refl).
Defined.

Lemma badge_example :
  statusLabel (backendStatus (ui askedWorld)) = lit "Checking" /\
  (statusLabel (backendStatus (ui checkedWorld)) = lit "Online" \/
   statusLabel (backendStatus (ui checkedWorld)) = lit "Error").
Proof.
  destruct (@badge_reads_checking_until_probe_settles v8TypeErrorText askedWorld
              askedWorld_reachable) as [[_ H] _].
  destruct (@badge_reads_checking_until_probe_settles v8TypeErrorText checkedWorld
              checkedWorld_reachable) as [_ H'].
  split; [apply H; right; reflexivity | apply H'; reflexivity].
Defined.

Lemma clear_panel_example :
  shownMessages (ui answeredWorld) <> [] /\
  shownMessages (ui (handleClearChat answeredWorld)) = [].
Proof.
  split; [vm_compute; discriminate |].
  apply (@clear_empties_the_panel v8TypeErrorText answeredWorld
           answeredWorld_reachable).
Defined.

Lemma clear_in_flight_example :
  exists w' m,
    run v8TypeErrorText
        [Send 2000 2001; ClearChat; ChatSettled 0 (okReply "Try Kyoto.") 2500]
        askedWorld = Some w' /\
    activeChat (ui w') = Some (Chat.with_messages askedChat [m]) /\
    Message.sender m = bot.
Proof.
  destruct (@clear_in_flight_keeps_the_reply v8TypeErrorText askedWorld askedChat
              2000 2001 (okReply "Try Kyoto.") 2500 askedWorld_reachable)
    as [w' [m [H1 [H2 [H3 _]]]]].
  - vm_compute. discriminate.
  - reflexivity.
  - reflexivity.
  - exists w', m. auto.
Defined.

Lemma shift_enter_example :
  handleKeyPress {| key := lit "Enter"; shiftKey := true |} 2000 2001 askedWorld
    = (false, askedWorld) /\
  snd (handleKeyPress {| key := lit "Enter"; shiftKey := false |} 2000 2001 askedWorld)
    = handleSend 2000 2001 askedWorld.
Proof.
  destruct (@only_enter_without_shift_sends v8TypeErrorText askedWorld
              {| key := lit "Enter"; shiftKey := true |} 2000 2001
              askedWorld_reachable) as [_ [_ [H _]]].
  destruct (@only_enter_without_shift_sends v8TypeErrorText askedWorld
              {| key := lit "Enter"; shiftKey := false |} 2000 2001
              askedWorld_reachable) as [_ [H' _]].
  split; [apply H; right; reflexivity | apply H'; reflexivity].
Defined.

Lemma reply_without_response_example :
  exists w',
    run v8TypeErrorText
        [Send 2000 2001; ChatSettled 0 (FetchResolved true (Normal (VObj []))) 2500]
        askedWorld = Some w' /\
    option_map (fun c => map Message.text (Chat.messages c)) (activeChat (ui w')) =
      Some [VStr (lit "Where should I go in March?"); VUndefined] /\
    error (ui w') = None.
Proof.
  destruct (@reply_without_response_is_shown_as_success v8TypeErrorText
              askedWorld askedChat 2000 2001 (VObj []) 2500 askedWorld_reachable)
    as [w' [H1 [H2 [H3 _]]]].
  - vm_compute. discriminate.
  - reflexivity.
  - reflexivity.
  - discriminate.
  - discriminate.
  - exists w'. split; [exact H1 |]. split; [rewrite H2; reflexivity | exact H3].
Defined.

